(** * QFA: structured covariance algebra and the Adam optimizer

    A shallow embedding of [src/utils.py] ([MatrixInverse], [MatrixLogDet])
    and of [src/model.py] ([Adam], [step_scheduler]), and the properties of
    the two files that the specification states.  The remaining functions
    of [utils.py] ([smooth], [tauHI], [omega_func], [tau]) are embedded as
    well, and the last part of the file proves further properties of all
    of them that can be read off the code.

    Numbers.  A [float32] entry of a tensor and a Python [float] are both
    read as a real number of the Standard Library ([R]), made a MathComp
    real field below; rounding and overflow are not modelled (nor the
    [OverflowError] that Python raises when a power of floats overflows), so
    the properties proved on these definitions are properties of the
    formulas of the code in exact arithmetic.  Where a property is about
    the accuracy of the float32 result, the code is read a second time over
    binary32, see [F32], [MatrixInverse_f32] and [MatrixLogDet_f32].
    Division and
    the square root are the total functions of the reals, so a statement
    involving them is about the code where the divisor is not zero and the
    radicand is not negative (for [1./D]: a [D] without zero entry).  The
    IEEE special values are kept where the code can produce them from
    finite data and a property depends on it: [torch.log] yields [-inf] at
    zero and [nan] below zero, see [xreal] and [torch_log]; [torch.pow]
    yields [nan] for a negative base with an exponent that is no integer,
    see [torch_pow].

    Shapes.  The matrices of [utils.py] are MathComp matrices, typed by
    their shape.  The tensors of [model.py] are sequences of entries, with
    the broadcasting rule of torch for one dimension.

    Exceptions and state.  A Python call returns a value or raises: the
    type [result], over the exceptions [exn] that the two files can raise.
    The only failure of [smooth] is the [ValueError] of numpy, written
    [None].
    A method of [Adam] is a function from the instance to the instance
    after the call and a [result]. *)

From Stdlib Require Import Reals Lra Lia Epsilon FunctionalExtensionality.
From Stdlib Require Import ZArith String SpecFloat.
From HB Require Import structures.
From mathcomp Require Import boot order algebra.

Set Implicit Arguments.
Unset Strict Implicit.
Unset Printing Implicit Defensive.

Import Order.TTheory GRing.Theory Num.Theory.

Local Close Scope R_scope.
Local Open Scope ring_scope.

(** Real numbers are written with the ring notations throughout. *)
Bind Scope ring_scope with R.
Arguments ln _%_R.
Arguments sqrt _%_R.
Arguments powerRZ _%_R _%_Z_scope.
Arguments exp _%_R.
Arguments Rpower _%_R _%_R.
Delimit Scope Z_scope with stdZ.

(** ** The reals of the Standard Library as a MathComp real field *)

Module RealField.

Definition eqR (x y : R) : bool := if Req_dec_T x y then true else false.

Lemma eqR_spec : Equality.axiom eqR.
Proof. by move=> x y; rewrite /eqR; case: Req_dec_T => h; constructor. Qed.

HB.instance Definition _ := hasDecEq.Build R eqR_spec.

(** Hilbert's epsilon picks a point of a non-empty boolean predicate. *)
Definition pickR (P : pred R) (_ : nat) : option R :=
  let x := epsilon (inhabits R0) (fun y => P y = true) in
  if P x then Some x else None.

Lemma pickR_sound (P : pred R) n x : pickR P n = Some x -> P x.
Proof. by rewrite /pickR; case: ifP => // Px [<-]. Qed.

Lemma pickR_complete (P : pred R) : (exists x, P x) -> exists n, pickR P n.
Proof.
move=> exP; exists 0%N; rewrite /pickR.
by rewrite (epsilon_spec (inhabits R0) (fun y => P y = true) exP).
Qed.

Lemma pickR_ext (P Q : pred R) : P =1 Q -> pickR P =1 pickR Q.
Proof.
move=> PQ n; rewrite /pickR.
have -> : (fun y => P y = true) = (fun y => Q y = true).
  by apply: functional_extensionality => y; rewrite PQ.
by rewrite PQ.
Qed.

HB.instance Definition _ :=
  hasChoice.Build R pickR_sound pickR_complete pickR_ext.

Lemma R_addNr : left_inverse R0 Ropp Rplus.
Proof. exact: Rplus_opp_l. Qed.

Lemma R_addA : associative Rplus.
Proof. by move=> x y z; rewrite Rplus_assoc. Qed.

HB.instance Definition _ :=
  GRing.isZmodule.Build R R_addA Rplus_comm Rplus_0_l R_addNr.

Lemma R_mulA : associative Rmult.
Proof. by move=> x y z; rewrite Rmult_assoc. Qed.

Lemma R_mulDl : left_distributive Rmult Rplus.
Proof. by move=> x y z; rewrite Rmult_plus_distr_r. Qed.

Lemma R_one_neq0 : R1 != R0.
Proof. by apply/eqP; exact: R1_neq_R0. Qed.

HB.instance Definition _ :=
  GRing.Zmodule_isComNzRing.Build R
    R_mulA Rmult_comm Rmult_1_l R_mulDl R_one_neq0.

Lemma R_mulVf (x : R) : x != 0 -> Rmult (Rinv x) x = 1.
Proof. by move/eqP => nz; rewrite Rinv_l. Qed.

HB.instance Definition _ := GRing.ComNzRing_isField.Build R R_mulVf Rinv_0.

Definition leR (x y : R) : bool := if Rle_dec x y then true else false.
Definition ltR (x y : R) : bool := if Rlt_dec x y then true else false.

Lemma leRP x y : reflect (Rle x y) (leR x y).
Proof. by rewrite /leR; case: Rle_dec => h; constructor. Qed.

Lemma ltRP x y : reflect (Rlt x y) (ltR x y).
Proof. by rewrite /ltR; case: Rlt_dec => h; constructor. Qed.

Lemma leR0_add x y : leR 0 x -> leR 0 y -> leR 0 (x + y).
Proof. by move=> /leRP hx /leRP hy; apply/leRP; exact: Rplus_le_le_0_compat. Qed.

Lemma leR0_mul x y : leR 0 x -> leR 0 y -> leR 0 (x * y).
Proof. by move=> /leRP hx /leRP hy; apply/leRP; exact: Rmult_le_pos. Qed.

Lemma leR0_anti x : leR 0 x -> leR x 0 -> x = 0.
Proof. by move=> /leRP hx /leRP hy; exact: Rle_antisym. Qed.

Lemma subR_ge0 x y : leR 0 (y - x) = leR x y.
Proof.
apply/leRP/leRP; rewrite /GRing.add /GRing.opp /GRing.zero /= => h; Lra.lra.
Qed.

Lemma leR0_total x : leR 0 x || leR x 0.
Proof.
by case: (Rle_or_lt 0 x) => [/leRP -> //|/Rlt_le /leRP ->]; rewrite orbT.
Qed.

Lemma absRN x : Rabs (- x) = Rabs x.
Proof. exact: Rabs_Ropp. Qed.

Lemma ge0_absR x : leR 0 x -> Rabs x = x.
Proof. by move=> /leRP h; exact: Rabs_pos_eq. Qed.

Lemma ltR_def x y : ltR x y = (y != x) && leR x y.
Proof.
apply/ltRP/andP => [h|[/eqP ne /leRP le]].
- split; first by apply/eqP => e; move: h; rewrite e; exact: Rlt_irrefl.
  by apply/leRP; exact: Rlt_le.
- by case: le => // e; case: ne.
Qed.

HB.instance Definition _ :=
  Num.IntegralDomain_isLeReal.Build R
    leR0_add leR0_mul leR0_anti subR_ge0 leR0_total absRN ge0_absR ltR_def.


End RealField.

Import RealField.

(** ** Python results and IEEE special values *)

(** The exceptions raised by the code under study: a missing dictionary
    key, a singular argument of [torch.linalg.inv], tensor operands whose
    shapes cannot be broadcast, and an integer division by zero. *)
Inductive exn : Type :=
| KeyError (k : string)
| LinAlgError
| RuntimeError
| ZeroDivisionError.

Inductive result (A : Type) : Type :=
| Ok (a : A)
| Raise (e : exn).

Arguments Ok {A} a.
Arguments Raise {A} e.

Definition bind {A B : Type} (r : result A) (k : A -> result B) : result B :=
  match r with
  | Ok a => k a
  | Raise e => Raise e
  end.

Notation "x <- r ;; k" := (bind r (fun x => k))
  (at level 100, r at next level, right associativity).

Definition is_ok {A : Type} (r : result A) : bool :=
  if r is Ok _ then true else false.

(** A float that is a real number, an infinity, or not a number. *)
Inductive xreal : Type :=
| Fin (r : R)
| PosInf
| NegInf
| NaN.

(** IEEE addition on [xreal]: [nan] absorbs, opposite infinities cancel to
    [nan]. *)
Definition xadd (a b : xreal) : xreal :=
  match a, b with
  | NaN, _ | _, NaN => NaN
  | Fin x, Fin y => Fin (x + y)
  | PosInf, NegInf | NegInf, PosInf => NaN
  | PosInf, _ | _, PosInf => PosInf
  | NegInf, _ | _, NegInf => NegInf
  end.

(** [torch.log] at a real entry. *)
Definition torch_log (x : R) : xreal :=
  if 0 < x then Fin (ln x) else if x == 0 then NegInf else NaN.

(** [torch.sum] of a vector of [n] floats. *)
Definition torch_sum (n : nat) (x : 'I_n -> xreal) : xreal :=
  \big[xadd/Fin 0]_(p < n) x p.

(** ** [src/utils.py]: the structured covariance [M M^T + diag D]

    The entries are real numbers: the definitions of this part are the
    formulas of the code in exact arithmetic, and say nothing of the
    accuracy of the float32 result.  [MatrixInverse_f32] and
    [MatrixLogDet_f32] read the same lines over binary32. *)

(** A device handle is passed through and never inspected. *)
Inductive device : Type := Device (name : string).

Definition to_device {A : Type} (_ : device) (x : A) : A := x.

Section StructuredCovariance.

Variables Npix Nh : nat.

(** [torch.diag] of a vector, [torch.eye], [1./D]. *)
Definition torch_diag n (d : 'rV[R]_n) : 'M[R]_n := diag_mx d.
Definition torch_eye n : 'M[R]_n := 1%:M.
Definition recip n (d : 'rV[R]_n) : 'rV[R]_n := map_mx (fun x => 1 / x) d.

(** [torch.linalg.inv] raises on a singular matrix. *)
Definition linalg_inv n (A : 'M[R]_n) : result 'M[R]_n :=
  if A \in unitmx then Ok (invmx A) else Raise LinAlgError.

Definition linalg_det n (A : 'M[R]_n) : R := \det A.

(** The [Nh x Nh] matrix both functions build: [I + M.T @ diagD @ M]. *)
Definition inner (M : 'M[R]_(Npix, Nh)) (D : 'rV[R]_Npix) (dev : device) :
    'M[R]_Nh :=
  let diagD := torch_diag (recip D) in
  let I := to_device dev (torch_eye Nh) in
  I + M^T *m diagD *m M.

Definition MatrixInverse (M : 'M[R]_(Npix, Nh)) (D : 'rV[R]_Npix)
    (dev : device) : result 'M[R]_Npix :=
  let diagD := torch_diag (recip D) in
  let I := to_device dev (torch_eye Nh) in
  inv <- linalg_inv (I + M^T *m diagD *m M) ;;
  Ok (diagD - diagD *m M *m inv *m M^T *m diagD).

Definition MatrixLogDet (M : 'M[R]_(Npix, Nh)) (D : 'rV[R]_Npix)
    (dev : device) : result xreal :=
  let diagD := torch_diag (recip D) in
  let I := to_device dev (torch_eye Nh) in
  Ok (xadd (torch_sum (fun p => torch_log (D 0 p)))
           (torch_log (linalg_det (I + M^T *m diagD *m M)))).


End StructuredCovariance.

(** *** The dense kernels the two functions call

    The same two functions with every call of a dense torch kernel
    recorded: [@] on an [m x k] and a [k x n] operand, [torch.linalg.inv]
    and [torch.linalg.det] on an [n x n] operand.  [torch.diag] returns a
    dense [Npix x Npix] matrix and [@] does not look for its zeros. *)
Inductive kernel : Type :=
| MatMul (m k n : nat)
| Inv (n : nat)
| Det (n : nat).

(** Scalar multiplications of a kernel, to leading order: [m k n] for a
    product, [n^3] for an inversion or a determinant by elimination. *)
Definition kernel_cost (o : kernel) : nat :=
  match o with
  | MatMul m k n => m * k * n
  | Inv n => n ^ 3
  | Det n => n ^ 3
  end.

Definition cost (t : seq kernel) : nat := sumn [seq kernel_cost o | o <- t].

Definition traced (A : Type) : Type := (A * seq kernel)%type.

Definition tret {A : Type} (a : A) : traced A := (a, [::]).

Definition tbind {A B : Type} (c : traced A) (k : A -> traced B) : traced B :=
  let: (a, t) := c in let: (b, t') := k a in (b, t ++ t').

Notation "x <- c ;> k" := (tbind c (fun x => k))
  (at level 100, c at next level, right associativity).

Definition matmul_t m k n (A : 'M[R]_(m, k)) (B : 'M[R]_(k, n)) :
    traced 'M[R]_(m, n) :=
  (A *m B, [:: MatMul m k n]).

Definition inv_t n (A : 'M[R]_n) : traced (result 'M[R]_n) :=
  (linalg_inv A, [:: Inv n]).

Definition det_t n (A : 'M[R]_n) : traced R := (linalg_det A, [:: Det n]).

Section TracedCovariance.

Variables Npix Nh : nat.

(** [diagD - diagD@M@torch.linalg.inv(I+M.T@diagD@M)@M.T@diagD], the
    products from left to right, the argument of [inv] when its turn
    comes. *)
Definition MatrixInverse_traced (M : 'M[R]_(Npix, Nh)) (D : 'rV[R]_Npix)
    (dev : device) : traced (result 'M[R]_Npix) :=
  let diagD := torch_diag (recip D) in
  let I := to_device dev (torch_eye Nh) in
  dM <- matmul_t diagD M ;>
  MtD <- matmul_t M^T diagD ;>
  MtDM <- matmul_t MtD M ;>
  r <- inv_t (I + MtDM) ;>
  match r with
  | Raise e => tret (Raise e)
  | Ok inv =>
      dMi <- matmul_t dM inv ;>
      dMiMt <- matmul_t dMi M^T ;>
      X <- matmul_t dMiMt diagD ;>
      tret (Ok (diagD - X))
  end.

(** [torch.sum(torch.log(D)) + torch.log(torch.linalg.det(I+M.T@diagD@M))] *)
Definition MatrixLogDet_traced (M : 'M[R]_(Npix, Nh)) (D : 'rV[R]_Npix)
    (dev : device) : traced (result xreal) :=
  let diagD := torch_diag (recip D) in
  let I := to_device dev (torch_eye Nh) in
  MtD <- matmul_t M^T diagD ;>
  MtDM <- matmul_t MtD M ;>
  d <- det_t (I + MtDM) ;>
  tret (Ok (xadd (torch_sum (fun p => torch_log (D 0 p))) (torch_log d))).

End TracedCovariance.

(** ** [src/model.py]: the Adam optimizer *)

HB.instance Definition _ := hasDecEq.Build string String.eqb_spec.

(** A tensor is read as its sequence of entries (one dimension); a
    parameter dictionary keeps Python's insertion order. *)
Definition tensor : Type := seq R.
Definition dict : Type := seq (string * tensor).

Definition keys (d : dict) : seq string := [seq kv.1 | kv <- d].

(** [d[k]]: the value stored under [k], or [KeyError]. *)
Fixpoint getitem (d : dict) (k : string) : result tensor :=
  if d is (k', x) :: d' then (if k' == k then Ok x else getitem d' k)
  else Raise (KeyError k).

(** [{k: body(k) for k in ks}]: the bodies run in order, the first exception
    ends the comprehension. *)
Fixpoint dict_comp (ks : seq string) (body : string -> result tensor) :
    result dict :=
  if ks is k :: ks' then
    x <- body k ;; d <- dict_comp ks' body ;; Ok ((k, x) :: d)
  else Ok [::].

(** The value stored under [k], the empty tensor when there is none: a
    total reading of a dictionary, for statements. *)
Definition getd (d : dict) (k : string) : tensor :=
  if getitem d k is Ok x then x else [::].

(** Entrywise operations of torch on one-dimensional tensors.  Two tensor
    operands of different lengths are broadcast when one of them has a
    single entry and rejected otherwise. *)
Definition map2 (f : R -> R -> R) (a b : tensor) : tensor :=
  [seq f x.1 x.2 | x <- zip a b].

Definition broadcast2 (f : R -> R -> R) (a b : tensor) : result tensor :=
  if size a == size b then Ok (map2 f a b)
  else if size a == 1%N then Ok [seq f (head 0 a) y | y <- b]
  else if size b == 1%N then Ok [seq f x (head 0 b) | x <- a]
  else Raise RuntimeError.

Definition tadd : tensor -> tensor -> result tensor := broadcast2 +%R.
Definition tsub : tensor -> tensor -> result tensor :=
  broadcast2 (fun x y => x - y).
Definition tmul : tensor -> tensor -> result tensor := broadcast2 *%R.
Definition tdiv : tensor -> tensor -> result tensor :=
  broadcast2 (fun x y => x / y).

(** A Python float on one side. *)
Definition smul (c : R) (t : tensor) : tensor := [seq c * x | x <- t].
Definition tdiv_s (t : tensor) (c : R) : tensor := [seq x / c | x <- t].
Definition tadd_s (t : tensor) (c : R) : tensor := [seq x + c | x <- t].

Definition torch_sqrt (t : tensor) : tensor := [seq sqrt x | x <- t].
Definition zeros_like (t : tensor) : tensor := [seq 0 | _ <- t].

(** The keys of a dictionary with the shapes of its tensors. *)
Definition shapes (d : dict) : seq (string * nat) :=
  [seq (kv.1, size kv.2) | kv <- d].

Module Adam.

(** The attributes of an instance. *)
Record t : Type := Make {
  learning_rate : R;
  b1 : R;
  b2 : R;
  eps : R;
  dev : device;
  weight_decay : R;
  scheduler : option (nat -> R -> result R);
  m : dict;
  v : dict;
  i : nat
}.

Definition set_m (self : t) (m' : dict) : t :=
  Make (learning_rate self) (b1 self) (b2 self) (eps self) (dev self)
       (weight_decay self) (scheduler self) m' (v self) (i self).

Definition set_v (self : t) (v' : dict) : t :=
  Make (learning_rate self) (b1 self) (b2 self) (eps self) (dev self)
       (weight_decay self) (scheduler self) (m self) v' (i self).

Definition set_i (self : t) (i' : nat) : t :=
  Make (learning_rate self) (b1 self) (b2 self) (eps self) (dev self)
       (weight_decay self) (scheduler self) (m self) (v self) i'.

(** A method runs on the instance and leaves it in a new state, whether it
    returns or raises. *)
Definition method (A : Type) : Type := t -> t * result A.

Definition lift {A : Type} (r : result A) : method A := fun self => (self, r).

Definition mbind {A B : Type} (c : method A) (k : A -> method B) : method B :=
  fun self =>
    let: (self', r) := c self in
    match r with
    | Ok a => k a self'
    | Raise e => (self', Raise e)
    end.

Definition read {A : Type} (f : t -> A) : method A :=
  fun self => (self, Ok (f self)).

Definition assign (f : t -> t) : method unit :=
  fun self => (f self, Ok tt).

Notation "x <~ c ;;; k" := (mbind c (fun x => k))
  (at level 100, c at next level, right associativity).
Notation "c ;;; k" := (mbind c (fun _ => k))
  (at level 100, right associativity).

(** [__init__] *)
Definition init (params : dict) (device_ : device)
    (scheduler_ : option (nat -> R -> result R))
    (learning_rate_ b1_ b2_ eps_ weight_decay_ : R) : t :=
  Make learning_rate_ b1_ b2_ eps_ device_ weight_decay_ scheduler_
    [seq (kv.1, to_device device_ (zeros_like kv.2)) | kv <- params]
    [seq (kv.1, to_device device_ (zeros_like kv.2)) | kv <- params]
    0.

(** The property [scheduled_lr]. *)
Definition scheduled_lr (self : t) : result R :=
  if scheduler self is Some sched then sched (i self) (learning_rate self)
  else Ok (learning_rate self).

(** [update(params, g)] *)
Definition update (params g : dict) : method dict :=
  self <~ read id ;;;
  g <~ lift (dict_comp (keys g) (fun v =>
         gv <- getitem g v ;; pv <- getitem params v ;;
         tadd gv (smul (weight_decay self) pv))) ;;;
  m' <~ lift (dict_comp (keys g) (fun v =>
         gv <- getitem g v ;; mv <- getitem (m self) v ;;
         tadd (smul (1 - b1 self) gv) (smul (b1 self) mv))) ;;;
  assign (fun self => set_m self m') ;;;
  self <~ read id ;;;
  v' <~ lift (dict_comp (keys g) (fun k =>
         gk <- getitem g k ;; gk' <- getitem g k ;;
         gg <- tmul (smul (1 - b2 self) gk) gk' ;;
         vk <- getitem (v self) k ;;
         tadd gg (smul (b2 self) vk))) ;;;
  assign (fun self => set_v self v') ;;;
  self <~ read id ;;;
  mhat <~ lift (dict_comp (keys g) (fun v =>
         mv <- getitem (m self) v ;;
         Ok (tdiv_s mv (1 - b1 self ^+ (i self + 1))))) ;;;
  vhat <~ lift (dict_comp (keys g) (fun k =>
         vk <- getitem (v self) k ;;
         Ok (tdiv_s vk (1 - b2 self ^+ (i self + 1))))) ;;;
  lift (dict_comp (keys params) (fun v =>
         pv <- getitem params v ;;
         lr <- scheduled_lr self ;;
         mh <- getitem mhat v ;;
         vh <- getitem vhat v ;;
         q <- tdiv (smul lr mh) (tadd_s (torch_sqrt vh) (eps self)) ;;
         tsub pv q)).

(** [reset(params)] *)
Definition reset (params : dict) : method unit :=
  self <~ read id ;;;
  assign (fun self => set_m self
    [seq (kv.1, to_device (dev self) (zeros_like kv.2)) | kv <- params]) ;;;
  assign (fun self => set_v self
    [seq (kv.1, to_device (dev self) (zeros_like kv.2)) | kv <- params]) ;;;
  assign (fun self => set_i self 0).

(** [step()] *)
Definition step : method unit :=
  assign (fun self => set_i self (i self + 1)).

End Adam.

(** *** The tensors of one [update], key by key

    What lines 41 to 46 of [model.py] compute under the key [k] when no
    lookup fails and the shapes agree: the decayed gradient, the two new
    moments, their bias-corrected versions and the new parameter. *)
Section UpdateTensors.

Variables (self : Adam.t) (params g : dict) (lr : R).

Definition decayed_grad (k : string) : tensor :=
  map2 +%R (getd g k) (smul (Adam.weight_decay self) (getd params k)).

Definition new_m (k : string) : tensor :=
  map2 +%R (smul (1 - Adam.b1 self) (decayed_grad k))
           (smul (Adam.b1 self) (getd (Adam.m self) k)).

Definition new_v (k : string) : tensor :=
  map2 +%R
    (map2 *%R (smul (1 - Adam.b2 self) (decayed_grad k)) (decayed_grad k))
    (smul (Adam.b2 self) (getd (Adam.v self) k)).

Definition m_hat (k : string) : tensor :=
  tdiv_s (new_m k) (1 - Adam.b1 self ^+ (Adam.i self + 1)).

Definition v_hat (k : string) : tensor :=
  tdiv_s (new_v k) (1 - Adam.b2 self ^+ (Adam.i self + 1)).

Definition new_param (k : string) : tensor :=
  map2 (fun x y => x - y) (getd params k)
    (map2 (fun x y => x / y) (smul lr (m_hat k))
       (tadd_s (torch_sqrt (v_hat k)) (Adam.eps self))).

(** The instance after the two assignments of lines 42 and 43. *)
Definition after_moments : Adam.t :=
  Adam.set_v (Adam.set_m self [seq (k, new_m k) | k <- keys g])
             [seq (k, new_v k) | k <- keys g].

End UpdateTensors.

(** *** The update rule in the words of the specification

    One entry of one parameter tensor: [p] is the parameter, [gr] the
    gradient, [mo] and [vo] the stored first and second moments, [lr_eff]
    the effective learning rate. *)
Definition spec_new_m (self : Adam.t) (p gr mo : R) : R :=
  let g' := gr + Adam.weight_decay self * p in
  (1 - Adam.b1 self) * g' + Adam.b1 self * mo.

Definition spec_new_v (self : Adam.t) (p gr vo : R) : R :=
  let g' := gr + Adam.weight_decay self * p in
  (1 - Adam.b2 self) * g' ^+ 2 + Adam.b2 self * vo.

Definition spec_update_entry (self : Adam.t) (lr_eff p gr mo vo : R) : R :=
  let mhat := spec_new_m self p gr mo / (1 - Adam.b1 self ^+ (Adam.i self + 1)) in
  let vhat := spec_new_v self p gr vo / (1 - Adam.b2 self ^+ (Adam.i self + 1)) in
  p - lr_eff * mhat / (sqrt vhat + Adam.eps self).

Definition spec_lr_eff (self : Adam.t) : result R :=
  match Adam.scheduler self with
  | Some sched => sched (Adam.i self) (Adam.learning_rate self)
  | None => Ok (Adam.learning_rate self)
  end.

(** [step_scheduler(alpha, step)]: the closure it returns.  [//] is floor
    division, which fails on a zero divisor; a float zero has no negative
    power.  A power too large for a float, on which Python raises
    [OverflowError], is outside the model: the numbers are reals. *)
Definition step_scheduler (alpha : R) (step : Z) : nat -> R -> result R :=
  fun i lr =>
    if Z.eqb step 0 then Raise ZeroDivisionError
    else
      let k := Z.div (Z.of_nat (i + 1)) step in
      if (alpha == 0) && Z.ltb k 0 then Raise ZeroDivisionError
      else Ok (lr * powerRZ alpha k).

(** *** Sample inputs

    An optimizer built with the default hyperparameters of [__init__] and
    the staircase scheduler, over one or two named tensors. *)
Definition defaults (params : dict) : Adam.t :=
  Adam.init params (Device "cpu") (Some (step_scheduler (1 / 2) 10))
    (1 / 100) (9 / 10) (999 / 1000) (1 / 10 ^+ 8) (1 / 1000).

Definition params_w : dict := [:: ("w"%string, [:: 1; 2])].
Definition params_w' : dict := [:: ("w"%string, [:: 7; 8])].
Definition params_wb : dict :=
  [:: ("w"%string, [:: 1; 2]); ("b"%string, [:: 5])].
Definition g_w : dict := [:: ("w"%string, [:: 3; 4])].
Definition g_wb : dict := [:: ("w"%string, [:: 3; 4]); ("b"%string, [:: 6])].

(** A one by one low-rank factor with a negative diagonal: [M = [[1]]],
    [D = [-1]], for which [I + M.T @ diagD @ M] is [[0]]. *)
Definition M_one : 'M[R]_(1, 1) := const_mx 1.
Definition D_neg : 'rV[R]_1 := const_mx (- 1).

(** ** [src/utils.py] in binary32, for one pixel and one component

    Where a property is about the accuracy of the float32 computation, the
    two functions are read once more with the numbers of the code: the
    binary32 format of IEEE 754 with rounding to nearest even, as specified
    by [SpecFloat].  The reading is for [Npix = Nh = 1], where no choice of
    the linear algebra library enters: each tensor holds one number,
    [torch.diag], [.T] and [torch.sum] return their argument, [@] is one
    multiplication, the determinant of a matrix is its entry, and
    [torch.linalg.inv] is one division that raises on a zero entry. *)
Module F32.

Definition prec : Z := 24.
Definition emax : Z := 128.

Definition t : Type := spec_float.

(** The float nearest to [m * 2 ^ e], and to an integer. *)
Definition of_dyadic (m e : Z) : t := binary_normalize prec emax m e false.
Definition of_Z (n : Z) : t := of_dyadic n 0.
Definition one : t := of_Z 1.

Definition add : t -> t -> t := SFadd prec emax.
Definition sub : t -> t -> t := SFsub prec emax.
Definition mul : t -> t -> t := SFmul prec emax.
Definition div : t -> t -> t := SFdiv prec emax.

Definition is_zero (x : t) : bool :=
  if x is S754_zero _ then true else false.

(** The real number a finite float stands for, and the float as an
    [xreal]. *)
Definition to_R (x : t) : R :=
  if x is S754_finite s m e
  then (if s then - 1 else 1) * IZR (Zpos m) * powerRZ (IZR 2) e else 0.

Definition to_xreal (x : t) : xreal :=
  match x with
  | S754_nan => NaN
  | S754_infinity s => if s then NegInf else PosInf
  | _ => Fin (to_R x)
  end.

End F32.

(** [torch.linalg.inv] of a one by one matrix. *)
Definition linalg_inv_f32 (A : F32.t) : result F32.t :=
  if F32.is_zero A then Raise LinAlgError else Ok (F32.div F32.one A).

(** [M M^T + diag D] formed in binary32. *)
Definition Sigma_f32 (M D : F32.t) : F32.t := F32.add (F32.mul M M) D.

Definition MatrixInverse_f32 (M D : F32.t) (dev : device) : result F32.t :=
  let diagD := F32.div F32.one D in
  let I := to_device dev F32.one in
  inv <- linalg_inv_f32 (F32.add I (F32.mul (F32.mul M diagD) M)) ;;
  Ok (F32.sub diagD
        (F32.mul (F32.mul (F32.mul (F32.mul diagD M) inv) M) diagD)).



(** Sample inputs in binary32: [4096], [2 ^ -13], [2 ^ 64] and [1]. *)
Definition M_4096 : F32.t := F32.of_Z 4096.
Definition D_one : F32.t := F32.of_Z 1.

(** ** [src/utils.py]: [smooth] *)

(** The index of a Python slice brought into range, for a sequence of
    length [len]; [backward] tells a negative step. *)
Definition adjust_index (backward : bool) (len i : Z) : Z :=
  if Z.ltb i 0 then
    if Z.ltb (i + len) 0 then (if backward then (- 1)%stdZ else 0%stdZ)
    else (i + len)%stdZ
  else if Z.leb len i then (if backward then (len - 1)%stdZ else len)
  else i.

(** [s[start:stop]] *)
Definition slice_fwd (s : tensor) (start stop : Z) : tensor :=
  let len := Z.of_nat (size s) in
  let a := adjust_index false len start in
  let b := adjust_index false len stop in
  drop (Z.to_nat a) (take (Z.to_nat b) s).

(** [s[start:stop:-1]] *)
Definition slice_bwd (s : tensor) (start stop : Z) : tensor :=
  let len := Z.of_nat (size s) in
  let a := adjust_index true len start in
  let b := adjust_index true len stop in
  [seq nth 0 s (Z.to_nat (a - Z.of_nat k)) | k <- iota 0 (Z.to_nat (a - b))].

(** [np.convolve(a, v, mode='valid')]: the operands are swapped when [v]
    is the longer one, an empty operand is a [ValueError] ([None]). *)
Definition convolve_valid (a v : tensor) : option tensor :=
  let: (long, short) := if (size a < size v)%N then (v, a) else (a, v) in
  if (size long == 0%N) || (size short == 0%N) then None
  else
    Some [seq \sum_(j < size short)
                nth 0 short j * nth 0 long (n + size short - 1 - j)
         | n <- iota 0 (size long - size short + 1)].

(** [smooth(s, window_len)]; [None] stands for the [ValueError] of
    [np.ones] on a negative length and of [np.convolve] on an empty
    operand. *)
Definition smooth (s : tensor) (window_len : Z) : option tensor :=
  let s' :=
    slice_bwd s (window_len - 1) 0 ++ s ++
    slice_bwd s (- 2) (- window_len - 1) in
  if Z.ltb window_len 0 then None
  else
    let kernel :=
      [seq x / IZR window_len | x <- nseq (Z.to_nat window_len) 1] in
    if convolve_valid kernel s' is Some y then
      Some (slice_fwd y (Z.quot (window_len - 2) 2) (- Z.quot window_len 2))
    else None.

(** ** [src/utils.py]: the optical depth curves *)

(** IEEE negation, multiplication and exponential on [xreal]. *)
Definition xneg (a : xreal) : xreal :=
  match a with
  | Fin x => Fin (- x)
  | PosInf => NegInf
  | NegInf => PosInf
  | NaN => NaN
  end.

(** A finite factor times an infinity of the given sign: [0 * inf] is
    [nan]. *)
Definition xscale (x : R) (positive : bool) : xreal :=
  if x == 0 then NaN else if (0 < x) == positive then PosInf else NegInf.

Definition xmul (a b : xreal) : xreal :=
  match a, b with
  | NaN, _ | _, NaN => NaN
  | Fin x, Fin y => Fin (x * y)
  | Fin x, PosInf | PosInf, Fin x => xscale x true
  | Fin x, NegInf | NegInf, Fin x => xscale x false
  | PosInf, PosInf | NegInf, NegInf => PosInf
  | PosInf, NegInf | NegInf, PosInf => NegInf
  end.

Definition xexp (a : xreal) : xreal :=
  match a with
  | Fin x => Fin (exp x)
  | PosInf => PosInf
  | NegInf => Fin 0
  | NaN => NaN
  end.

(** [torch.pow] at a real base and a real exponent: a power of zero is
    0, 1 or [inf], a negative base has a power for an integer exponent
    only. *)
Definition torch_pow (x y : R) : xreal :=
  if 0 < x then Fin (Rpower x y)
  else if x == 0 then
    if 0 < y then Fin 0 else if y == 0 then Fin 1 else PosInf
  else if IZR (Int_part y) == y then Fin (powerRZ x (Int_part y))
  else NaN.

(** The three curves act entry by entry on the redshift array. *)
Definition tauHI (z : tensor) (tau0 beta : R) : seq xreal :=
  [seq xmul (Fin tau0) (torch_pow (1 + x) beta) | x <- z].

Definition omega_func (z : tensor) (tau0 beta c0 : R) : seq xreal :=
  let root :=
    [seq xadd (Fin (1 - c0)) (xneg (xexp (xmul (Fin (- 1)) t)))
    | t <- tauHI z tau0 beta] in
  [seq xmul r r | r <- root].

Definition tau (z : tensor) : seq xreal :=
  let: (tau0, beta, C, z0) :=
    (751 / 1000 : R, 290 / 100 : R, - (132 / 1000) : R, 35 / 10 : R) in
  [seq xadd (xmul (Fin tau0) (torch_pow ((1 + x) / (1 + z0)) beta)) (Fin C)
  | x <- z].

(** ** The state that [update] needs *)

(** What [update] needs: the parameters and the gradient have the same
    keys, both moments know them, and under each key the four tensors
    have one length. *)
Definition fits (self : Adam.t) (params g : dict) : Prop :=
  [/\ {subset keys params <= keys g},
      {subset keys g <= keys params},
      {subset keys g <= keys (Adam.m self)},
      {subset keys g <= keys (Adam.v self)}
    & forall k, k \in keys g ->
        [/\ size (getd g k) = size (getd params k),
            size (getd (Adam.m self) k) = size (getd params k)
          & size (getd (Adam.v self) k) = size (getd params k)]].


(** A gradient for ["w"] of a length that cannot be broadcast against
    [params_w]. *)
Definition g_w3 : dict := [:: ("w"%string, [:: 3; 4; 5])].

(** ** Quadratic forms

    The notion of positive definiteness used in the proofs: the quadratic
    form [x^T A x] of a square matrix is positive away from zero. *)
Section QuadraticForm.

Variable F : realFieldType.

Definition qform n (A : 'M[F]_n) (x : 'cV[F]_n) : F := (x^T *m A *m x) 0 0.

Definition posdef n (A : 'M[F]_n) : Prop :=
  forall x : 'cV[F]_n, x != 0 -> 0 < qform A x.

End QuadraticForm.


(** ** Determinants of block matrices

    Facts of linear algebra over a field that the two identities behind
    [MatrixInverse] and [MatrixLogDet] rest on. *)

Section BlockDeterminants.

Variable F : fieldType.


(** The Woodbury identity for [M M^T + D], with [E] an inverse of [D]. *)
Lemma woodbury m n (M : 'M[F]_(m, n)) (D E : 'M[F]_m) :
  E *m D = 1%:M ->
  let A := 1%:M + M^T *m E *m M in
  A \in unitmx ->
  (E - E *m M *m invmx A *m M^T *m E) *m (M *m M^T + D) = 1%:M.
Proof.
move=> ED A unitA; set P := E *m M *m invmx A.
have PA : P *m A = E *m M by rewrite /P -mulmxA mulVmx // mulmx1.
rewrite mulmxBl.
have -> : P *m M^T *m E *m (M *m M^T + D) = E *m M *m M^T.
  rewrite -PA mulmxDr -[P *m M^T *m E *m D]mulmxA ED mulmx1.
  rewrite -!mulmxA -!mulmxDr; do 3 congr (_ *m _).
  by rewrite /A mulmxDl mul1mx !mulmxA addrC.
by rewrite mulmxDr ED !mulmxA addrAC subrr add0r.
Qed.

Lemma diag_mx_mul1 m (d e : 'rV[F]_m) :
  (forall p, e 0 p * d 0 p = 1) -> diag_mx e *m diag_mx d = 1%:M.
Proof.
move=> ed; rewrite mulmx_diag -diag_const_mx; congr diag_mx.
by apply/rowP => p; rewrite !mxE.
Qed.


End BlockDeterminants.

(** ** Positive definite matrices over a real field *)

Section PositiveDefinite.

Variable F : realFieldType.

Lemma mx11_scalarE (k : F) : (k%:M : 'M[F]_1) 0 0 = k.
Proof. by rewrite mxE eqxx mulr1n. Qed.

Lemma mx11_subE (A B : 'M[F]_1) : (A - B) 0 0 = A 0 0 - B 0 0.
Proof. by rewrite !mxE. Qed.

Lemma qform_block n (a : 'M[F]_1) (b : 'M[F]_(1, n)) (c : 'M[F]_(n, 1))
    (S : 'M[F]_n) (t : F) (y : 'cV[F]_n) :
  qform (block_mx a b c S) (col_mx t%:M y) =
  t * a 0 0 * t + (y^T *m c) 0 0 * t + t * (b *m y) 0 0 + qform S y.
Proof.
rewrite /qform tr_col_mx mul_row_block mul_row_col tr_scalar_mx.
have addE (A B : 'M[F]_1) : (A + B) 0 0 = A 0 0 + B 0 0 by rewrite mxE.
have scaleE k (A : 'M[F]_1) : (k *: A) 0 0 = k * A 0 0 by rewrite mxE.
rewrite !mulmxDl !mul_mx_scalar !mul_scalar_mx -!scalemxAl !addE !scaleE.
by rewrite /qform; ring.
Qed.

(** Eliminating the first row and column: the Schur complement of the
    top-left entry. *)
Lemma schur_block n (a : F) (b : 'M[F]_(1, n)) (c : 'M[F]_(n, 1))
    (S : 'M[F]_n) :
  a != 0 ->
  block_mx a%:M b c S =
  block_mx 1%:M 0 (a^-1 *: c) 1%:M *m
  block_mx a%:M b 0 (S - a^-1 *: (c *m b)).
Proof.
move=> a0; rewrite mulmx_block !mul1mx !mul0mx ?mulmx0 !addr0.
rewrite mul_mx_scalar scalerA divff // scale1r.
by rewrite -scalemxAl addrCA subrr addr0.
Qed.

Lemma det_schur n (a : F) (b : 'M[F]_(1, n)) (c : 'M[F]_(n, 1))
    (S : 'M[F]_n) :
  a != 0 -> \det (block_mx a%:M b c S) = a * \det (S - a^-1 *: (c *m b)).
Proof.
move=> a0; rewrite (schur_block _ _ _ a0) det_mulmx det_lblock det_ublock.
by rewrite !det1 !mul1r det_scalar1.
Qed.

Lemma schur_scalar (a beta gamma q : F) :
  a != 0 ->
  let t := - (a^-1 * beta) in
  t * a * t + gamma * t + t * beta + q = q - a^-1 * (gamma * beta).
Proof. by move=> a0 /=; field. Qed.

Lemma posdef_det_gt0 n (A : 'M[F]_n) : posdef A -> 0 < \det A.
Proof.
elim: n A => [|n IHn] A pdA; first by rewrite det_mx00 ltr01.
pose A' : 'M_(1 + n) := A.
pose b := ursubmx A'; pose c := dlsubmx A'; pose S := drsubmx A'.
pose a := ulsubmx A' 0 0.
have blockA : block_mx a%:M b c S = A.
  by rewrite /a -mx11_scalar; exact: submxK.
have a_gt0 : 0 < a.
  have /pdA : col_mx (1 : F)%:M (0 : 'cV[F]_n) != 0.
    by rewrite col_mx_eq0 negb_and -scalemx1 scalemx_eq0 !oner_eq0.
  rewrite -blockA qform_block /qform !mulmx0 mul1r !mulr1 trmx0 mul0mx.
  by rewrite !mxE /= mulr1n mulr0 !addr0.
rewrite -blockA (det_schur _ _ _ (lt0r_neq0 a_gt0)).
rewrite mulr_gt0 //; apply: IHn => y y0.
pose t := - (a^-1 * (b *m y) 0 0).
have /pdA : col_mx t%:M y != 0 by rewrite col_mx_eq0 negb_and y0 orbT.
rewrite -blockA qform_block /qform mulmxBr mulmxBl.
set beta := (b *m y) 0 0; set gamma := (y^T *m c) 0 0.
have -> : y^T *m (a^-1 *: (c *m b)) *m y = (a^-1 * (gamma * beta))%:M.
  rewrite -scalemxAr -scalemxAl mulmxA -mulmxA.
  by rewrite [y^T *m c]mx11_scalar [b *m y]mx11_scalar -scalar_mxM scale_scalar_mx.
set q := (_ *m S *m _) 0 0; rewrite mx11_subE !mx11_scalarE.
by rewrite /t schur_scalar // lt0r_neq0.
Qed.

(** The quadratic forms of the identity, of a diagonal matrix and of a
    congruence [M^T C M]. *)
Lemma qformD n (A B : 'M[F]_n) x : qform (A + B) x = qform A x + qform B x.
Proof. by rewrite /qform mulmxDr mulmxDl mxE. Qed.

Lemma qform_diag n (d : 'rV[F]_n) x :
  qform (diag_mx d) x = \sum_p d 0 p * x p 0 ^+ 2.
Proof.
rewrite /qform mul_mx_diag mxE; apply: eq_bigr => p _.
by rewrite !mxE expr2 mulrAC mulrC.
Qed.

Lemma qform1 n (x : 'cV[F]_n) : qform 1%:M x = \sum_p x p 0 ^+ 2.
Proof.
rewrite /qform mulmx1 mxE; apply: eq_bigr => p _.
by rewrite mxE expr2.
Qed.

Lemma qform_congr m n (M : 'M[F]_(m, n)) (C : 'M[F]_m) x :
  qform (M^T *m C *m M) x = qform C (M *m x).
Proof. by rewrite /qform trmx_mul !mulmxA. Qed.

Lemma qform1_gt0 n (x : 'cV[F]_n) : x != 0 -> 0 < qform 1%:M x.
Proof.
move=> /cV0Pn [j xj]; rewrite qform1 (bigD1 j) //=.
apply: ltr_pwDl; first by rewrite exprn_even_gt0.
by apply: sumr_ge0 => p _; exact: sqr_ge0.
Qed.

(** [I + M^T diag(d) M] is positive definite when [d] has no negative
    entry. *)
Lemma posdef_1Dgram m n (M : 'M[F]_(m, n)) (d : 'rV[F]_m) :
  (forall p, 0 <= d 0 p) -> posdef (1%:M + M^T *m diag_mx d *m M).
Proof.
move=> d_ge0 x x0; rewrite qformD qform_congr qform_diag.
apply: ltr_wpDr (qform1_gt0 x0).
by apply: sumr_ge0 => p _; rewrite mulr_ge0 // sqr_ge0.
Qed.

End PositiveDefinite.


(** ** [MatrixInverse] and [MatrixLogDet] on a positive diagonal *)

Section CovarianceFacts.

Variables Npix Nh : nat.
Variables (M : 'M[R]_(Npix, Nh)) (D : 'rV[R]_Npix) (dv : device).

Lemma recipE p : recip D 0 p = (D 0 p)^-1.
Proof. by rewrite /recip mxE mul1r. Qed.

Lemma recip_mul p : D 0 p != 0 -> recip D 0 p * D 0 p = 1.
Proof. by move=> Dp; rewrite recipE mulVf. Qed.

Hypothesis D_gt0 : forall p, 0 < D 0 p.

Lemma D_neq0 p : D 0 p != 0.
Proof. exact: lt0r_neq0. Qed.

Lemma recip_ge0 p : 0 <= recip D 0 p.
Proof. by rewrite recipE invr_ge0 ltW. Qed.

Lemma inner_det_gt0 : 0 < \det (inner M D dv).
Proof. exact/posdef_det_gt0/posdef_1Dgram/recip_ge0. Qed.

Lemma inner_unit : inner M D dv \in unitmx.
Proof. by rewrite unitmxE unitfE lt0r_neq0 // inner_det_gt0. Qed.


End CovarianceFacts.

(** ** Logarithms and sums of floats *)



Lemma torch_log_pos (x : R) : 0 < x -> torch_log x = Fin (ln x).
Proof. by rewrite /torch_log => ->. Qed.

Lemma torch_sum_Fin (n : nat) (f : 'I_n -> R) :
  torch_sum (fun p => Fin (f p)) = Fin (\sum_p f p).
Proof.
rewrite /torch_sum.
by apply: (big_rec2 (fun x s => x = Fin s)) => [|p x s _ ->].
Qed.

Lemma xadd0 (x : xreal) : xadd x (Fin 0) = x.
Proof. by case: x => // r; congr Fin; exact: addr0. Qed.

(** ** The claims on [src/utils.py] *)

(** C1, amended.  In exact arithmetic, for [M] of shape (Npix, Nh) and [D]
    with only positive entries, [MatrixInverse] returns (it does not raise)
    the Woodbury expression [Dinv - Dinv M (I + M^T Dinv M)^-1 M^T Dinv]
    with [Dinv = diag(1/D)]; the inner matrix is invertible, and the value
    returned is the inverse of [M M^T + diag(D)] on both sides.  This is a
    property of the formula over the reals; what the float32 evaluation
    makes of it is in [MatrixInverse_f32_returns_zero]. *)
Theorem MatrixInverse_woodbury Npix Nh (M : 'M[R]_(Npix, Nh))
    (D : 'rV[R]_Npix) (dv : device) :
  (forall p, 0 < D 0 p) ->
  let Dinv := diag_mx (map_mx (fun d => 1 / d) D) in
  let A := 1%:M + M^T *m Dinv *m M in
  exists S : 'M[R]_Npix,
    [/\ MatrixInverse M D dv = Ok S,
        A \in unitmx /\ invmx A *m A = 1%:M,
        S = Dinv - Dinv *m M *m invmx A *m M^T *m Dinv,
        S *m (M *m M^T + diag_mx D) = 1%:M
      & (M *m M^T + diag_mx D) *m S = 1%:M].
Proof.
move=> D_gt0 Dinv A.
have unitA : A \in unitmx by exact: (inner_unit M dv D_gt0).
have ED : Dinv *m diag_mx D = 1%:M.
  by apply: diag_mx_mul1 => p; rewrite recip_mul // D_neq0.
have SS := woodbury (M := M) ED unitA.
exists (Dinv - Dinv *m M *m invmx A *m M^T *m Dinv); split=> //.
- by rewrite /MatrixInverse /linalg_inv /to_device /torch_eye -/Dinv -/A unitA.
- by rewrite mulVmx.
- exact: mulmx1C.
Qed.

Lemma MatrixInverse_woodbury_witness :
  let M : 'M[R]_(2, 1) := const_mx 1 in
  let D : 'rV[R]_2 := const_mx 2 in
  exists S : 'M[R]_2,
    MatrixInverse M D (Device "cpu") = Ok S /\
    S *m (M *m M^T + diag_mx D) = 1%:M.
Proof.
move=> M D.
have D_gt0 : forall p, 0 < D 0 p by move=> p; rewrite mxE ltr0n.
by have [S [eqS _ _ invS _]] := MatrixInverse_woodbury M (Device "cpu") D_gt0;
   exists S.
Defined.



(** C8.  With [Nh = 0] (an [Npix x 0] matrix [M]) and a positive [D],
    [MatrixInverse] returns [diag(1/D)] and [MatrixLogDet] returns
    [sum(log(D))], a finite number. *)
Theorem degenerate_Nh0 Npix (M : 'M[R]_(Npix, 0)) (D : 'rV[R]_Npix)
    (dv : device) :
  (forall p, 0 < D 0 p) ->
  [/\ MatrixInverse M D dv = Ok (diag_mx (map_mx (fun d => 1 / d) D)),
      MatrixLogDet M D dv = Ok (torch_sum (fun p => torch_log (D 0 p)))
    & torch_sum (fun p => torch_log (D 0 p)) = Fin (\sum_p ln (D 0 p))].
Proof.
move=> D_gt0; split.
- rewrite /MatrixInverse /linalg_inv unitmxE det_mx00 unitr1 /=.
  by rewrite (thinmx0 M) mulmx0 !mul0mx subr0.
- rewrite /MatrixLogDet /linalg_det det_mx00 torch_log_pos ?ltr01 //.
  by rewrite ln_1 xadd0.
- rewrite -torch_sum_Fin /torch_sum; apply: eq_bigr => p _.
  exact: torch_log_pos.
Qed.

Lemma degenerate_Nh0_witness :
  let M : 'M[R]_(2, 0) := 0 in
  let D : 'rV[R]_2 := const_mx 2 in
  MatrixInverse M D (Device "cpu") = Ok (diag_mx (const_mx (1 / 2))) /\
  MatrixLogDet M D (Device "cpu") = Ok (Fin (ln 2 + (ln 2 + 0))).
Proof.
move=> M D.
have D_gt0 : forall p, 0 < D 0 p by move=> p; rewrite mxE ltr0n.
have [-> -> ->] := degenerate_Nh0 M (Device "cpu") D_gt0; split.
- by congr (Ok (diag_mx _)); apply/rowP => p; rewrite !mxE.
- by rewrite !big_ord_recl big_ord0 !mxE.
Defined.

Lemma inner_M_one_D_neg dv : inner M_one D_neg dv = 0.
Proof.
apply/matrixP => i j; rewrite !ord1 /inner /to_device /torch_eye /torch_diag.
rewrite mul_mx_diag !mxE big_ord_recl big_ord0 !mxE /=.
by rewrite mul1r mulr1 divrN divr1 addr0 mulr1n subrr.
Qed.

(** C4, as stated, fails: on [M = [[1]]], [D = [-1]] the inner determinant
    is [0], not positive, and [MatrixLogDet] returns [nan] as an ordinary
    value; nothing is raised. *)
Lemma MatrixLogDet_silent_nan :
  \det (inner M_one D_neg (Device "cpu")) <= 0 /\
  MatrixLogDet M_one D_neg (Device "cpu") = Ok NaN.
Proof.
have det0 : \det (inner M_one D_neg (Device "cpu")) = 0.
  by rewrite inner_M_one_D_neg det0.
split; first by rewrite det0.
rewrite /MatrixLogDet /linalg_det -/(inner M_one D_neg (Device "cpu")) det0.
rewrite /torch_sum big_ord_recl big_ord0 /torch_log !mxE.
by rewrite ltxx eqxx oppr_gt0 ltNge ler01 /= oppr_eq0 oner_eq0.
Qed.

Lemma torch_log_nonpos (x : R) :
  x <= 0 -> torch_log x = if x == 0 then NegInf else NaN.
Proof. by rewrite /torch_log leNgt => /negbTE ->. Qed.

Lemma xadd_NaN (x : xreal) : xadd x NaN = NaN.
Proof. by case: x. Qed.

Lemma xadd_NegInf (x : xreal) :
  xadd x NegInf = NaN \/ xadd x NegInf = NegInf.
Proof. by case: x => [r|||]; [right | left | right | left]. Qed.

(** C4, amended.  For [D] without a zero entry: when the inner matrix is
    singular, [MatrixInverse] raises the [LinAlgError] of
    [torch.linalg.inv]; [MatrixLogDet] never raises, and when the inner
    determinant is not positive the value it returns is [nan] (always so
    below zero) or [-inf]. *)
Theorem singular_inner_behaviour Npix Nh (M : 'M[R]_(Npix, Nh))
    (D : 'rV[R]_Npix) (dv : device) :
  (forall p, D 0 p != 0) ->
  [/\ inner M D dv \notin unitmx -> MatrixInverse M D dv = Raise LinAlgError,
      exists x, MatrixLogDet M D dv = Ok x,
      \det (inner M D dv) < 0 -> MatrixLogDet M D dv = Ok NaN
    & \det (inner M D dv) <= 0 ->
      MatrixLogDet M D dv = Ok NaN \/ MatrixLogDet M D dv = Ok NegInf].
Proof.
move=> _; split.
- by rewrite /MatrixInverse /linalg_inv -/(inner M D dv) => /negbTE ->.
- by eexists.
- move=> det_lt0; rewrite /MatrixLogDet /linalg_det -/(inner M D dv).
  by rewrite (torch_log_nonpos (ltW det_lt0)) lt_eqF // xadd_NaN.
- move=> det_le0; rewrite /MatrixLogDet /linalg_det -/(inner M D dv).
  rewrite (torch_log_nonpos det_le0); case: ifP => _.
    by case: (xadd_NegInf (torch_sum (fun p => torch_log (D 0 p)))) => ->;
       [left | right].
  by rewrite xadd_NaN; left.
Qed.

Lemma singular_inner_behaviour_witness :
  MatrixInverse M_one D_neg (Device "cpu") = Raise LinAlgError /\
  (MatrixLogDet M_one D_neg (Device "cpu") = Ok NaN \/
   MatrixLogDet M_one D_neg (Device "cpu") = Ok NegInf).
Proof.
have D_neq0 : forall p, D_neg 0 p != 0.
  by move=> p; rewrite mxE oppr_eq0 oner_eq0.
have [inv_raises _ _ logdet_silent] :=
  singular_inner_behaviour M_one (Device "cpu") D_neq0.
split.
- by apply: inv_raises; rewrite inner_M_one_D_neg unitmxE det0 unitr0.
- by apply: logdet_silent; rewrite inner_M_one_D_neg det0.
Defined.

(** ** The dense kernels behind [MatrixInverse] and [MatrixLogDet] *)

Section KernelFacts.

Variables Npix Nh : nat.
Variables (M : 'M[R]_(Npix, Nh)) (D : 'rV[R]_Npix) (dv : device).

Lemma MatrixInverse_traced_value :
  (MatrixInverse_traced M D dv).1 = MatrixInverse M D dv.
Proof.
rewrite /MatrixInverse_traced /MatrixInverse /tbind /matmul_t /inv_t /=.
by case: (linalg_inv _).
Qed.

Lemma MatrixLogDet_traced_value :
  (MatrixLogDet_traced M D dv).1 = MatrixLogDet M D dv.
Proof. by []. Qed.

Lemma MatrixInverse_kernels :
  inner M D dv \in unitmx ->
  (MatrixInverse_traced M D dv).2 =
  [:: MatMul Npix Npix Nh; MatMul Nh Npix Npix; MatMul Nh Npix Nh; Inv Nh;
      MatMul Npix Nh Nh; MatMul Npix Nh Npix; MatMul Npix Npix Npix].
Proof.
move=> unitA.
rewrite /MatrixInverse_traced /tbind /matmul_t /inv_t /linalg_inv /=.
by rewrite -/(inner M D dv) unitA.
Qed.

Lemma MatrixLogDet_kernels :
  (MatrixLogDet_traced M D dv).2 =
  [:: MatMul Nh Npix Npix; MatMul Nh Npix Nh; Det Nh].
Proof. by []. Qed.

Lemma MatrixInverse_cost :
  inner M D dv \in unitmx ->
  cost (MatrixInverse_traced M D dv).2 =
  (Npix ^ 3 + 3 * (Npix ^ 2 * Nh) + 2 * (Npix * Nh ^ 2) + Nh ^ 3)%N.
Proof.
move=> /MatrixInverse_kernels ->; rewrite /cost /= addn0.
ring.
Qed.

Lemma MatrixLogDet_cost :
  cost (MatrixLogDet_traced M D dv).2 =
  (Npix ^ 2 * Nh + Npix * Nh ^ 2 + Nh ^ 3)%N.
Proof.
rewrite MatrixLogDet_kernels /cost /= addn0.
ring.
Qed.

End KernelFacts.

Lemma cube_beats_linear (C : nat) :
  (C * (C * 1 ^ 2 + 1 ^ 3) <
   C ^ 3 + 3 * (C ^ 2 * 1) + 2 * (C * 1 ^ 2) + 1 ^ 3)%N.
Proof.
have -> : (C ^ 3 + 3 * (C ^ 2 * 1) + 2 * (C * 1 ^ 2) + 1 ^ 3 =
           C * (C * 1 ^ 2 + 1 ^ 3) + (C ^ 3 + 2 * C ^ 2 + C).+1)%N by ring.
by rewrite -addn1 leq_add2l.
Qed.

Lemma square_beats_linear (C : nat) :
  (C * (C.+1 * 1 ^ 2 + 1 ^ 3) <
   C.+1 ^ 2 * 1 + C.+1 * 1 ^ 2 + 1 ^ 3)%N.
Proof.
have -> : (C.+1 ^ 2 * 1 + C.+1 * 1 ^ 2 + 1 ^ 3 =
           C * (C.+1 * 1 ^ 2 + 1 ^ 3) + (C + 2).+1)%N by ring.
by rewrite -addn1 leq_add2l.
Qed.

(** C9, as stated, fails: no constant bounds the multiplications of
    [MatrixInverse], or those of [MatrixLogDet], by a multiple of
    [Npix Nh^2 + Nh^3], not even on positive [D] and with [Nh] at least
    one.  With [Nh = 1] the products by the dense [diag(1/D)] cost
    [Npix^2] and more. *)
Lemma dense_products_exceed_bound :
  (~ exists C : nat,
       forall Npix Nh (M : 'M[R]_(Npix, Nh)) (D : 'rV[R]_Npix) (dv : device),
         (0 < Nh)%N -> (forall p, 0 < D 0 p) ->
         (cost (MatrixInverse_traced M D dv).2 <=
          C * (Npix * Nh ^ 2 + Nh ^ 3))%N) /\
  (~ exists C : nat,
       forall Npix Nh (M : 'M[R]_(Npix, Nh)) (D : 'rV[R]_Npix) (dv : device),
         (0 < Nh)%N -> (forall p, 0 < D 0 p) ->
         (cost (MatrixLogDet_traced M D dv).2 <=
          C * (Npix * Nh ^ 2 + Nh ^ 3))%N).
Proof.
have ones_gt0 n : forall p, 0 < (const_mx 1 : 'rV[R]_n) 0 p.
  by move=> p; rewrite mxE ltr01.
split; case=> C bound.
- have unitA := inner_unit (0 : 'M[R]_(C, 1)) (Device "cpu") (ones_gt0 C).
  have := bound C 1%N 0 (const_mx 1) (Device "cpu") isT (ones_gt0 C).
  by rewrite (MatrixInverse_cost unitA) leqNgt cube_beats_linear.
- have := bound C.+1 1%N 0 (const_mx 1) (Device "cpu") isT (ones_gt0 C.+1).
  by rewrite MatrixLogDet_cost leqNgt square_beats_linear.
Qed.

(** C9, amended.  On a positive [D], the one inversion of [MatrixInverse]
    and the one determinant of [MatrixLogDet] are taken on an [Nh x Nh]
    matrix.  The products are dense and involve the [Npix x Npix] matrix
    [diag(1/D)]: in scalar multiplications, [MatrixInverse] costs
    [Npix^3 + 3 Npix^2 Nh + 2 Npix Nh^2 + Nh^3] and [MatrixLogDet] costs
    [Npix^2 Nh + Npix Nh^2 + Nh^3]. *)
Theorem covariance_kernels Npix Nh (M : 'M[R]_(Npix, Nh)) (D : 'rV[R]_Npix)
    (dv : device) :
  (forall p, 0 < D 0 p) ->
  let inv_run := MatrixInverse_traced M D dv in
  let det_run := MatrixLogDet_traced M D dv in
  [/\ inv_run.1 = MatrixInverse M D dv /\ det_run.1 = MatrixLogDet M D dv,
      inv_run.2 =
        [:: MatMul Npix Npix Nh; MatMul Nh Npix Npix; MatMul Nh Npix Nh;
            Inv Nh;
            MatMul Npix Nh Nh; MatMul Npix Nh Npix; MatMul Npix Npix Npix],
      det_run.2 = [:: MatMul Nh Npix Npix; MatMul Nh Npix Nh; Det Nh],
      cost inv_run.2 =
        (Npix ^ 3 + 3 * (Npix ^ 2 * Nh) + 2 * (Npix * Nh ^ 2) + Nh ^ 3)%N
    & cost det_run.2 = (Npix ^ 2 * Nh + Npix * Nh ^ 2 + Nh ^ 3)%N].
Proof.
move=> D_gt0 inv_run det_run; have unitA := inner_unit M dv D_gt0.
split.
- by rewrite MatrixInverse_traced_value MatrixLogDet_traced_value.
- exact: MatrixInverse_kernels.
- exact: MatrixLogDet_kernels.
- exact: MatrixInverse_cost.
- exact: MatrixLogDet_cost.
Qed.

Lemma covariance_kernels_witness :
  let M : 'M[R]_(2, 1) := const_mx 1 in
  let D : 'rV[R]_2 := const_mx 2 in
  cost (MatrixInverse_traced M D (Device "cpu")).2 = 25%N /\
  cost (MatrixLogDet_traced M D (Device "cpu")).2 = 7%N.
Proof.
move=> M D.
have D_gt0 : forall p, 0 < D 0 p by move=> p; rewrite mxE ltr0n.
by have [_ _ _ -> ->] := covariance_kernels M (Device "cpu") D_gt0.
Defined.

(** ** The claims on [step_scheduler] *)

Lemma half_neq0 : (1 / 2 : R) != 0.
Proof. by rewrite mul1r invr_eq0 pnatr_eq0. Qed.

(** The staircase scheduler with [alpha = 0.5] and [step = 10], unfolded. *)
Lemma step_scheduler_half10 (i : nat) (lr : R) :
  step_scheduler (1 / 2) 10 i lr =
  Ok (lr * powerRZ (1 / 2) (Z.div (Z.of_nat (i + 1)) 10)).
Proof. by rewrite /step_scheduler /= (negbTE half_neq0). Qed.

Lemma powerRZ_1 (x : R) : powerRZ x 1 = x.
Proof. by rewrite /powerRZ /=; exact: Rmult_1_r. Qed.

Lemma powerRZ_half_2 : powerRZ (1 / 2) 2 = 1 / 4 :> R.
Proof.
rewrite /powerRZ /= Rmult_1_r -[Rmult _ _]/((1 / 2) * (1 / 2) : R).
by rewrite !mul1r -invfM -natrM.
Qed.

(** C5, as stated, fails at [i = 9] and at [i = 19]: with [lr = 1] the
    scheduler returns [0.5] at 9, not [1], and [0.25] at 19, not [0.5]. *)
Lemma step_scheduler_drop_at_9_and_19 :
  step_scheduler (1 / 2) 10 9 1 <> Ok 1 /\
  step_scheduler (1 / 2) 10 19 1 <> Ok (1 * (1 / 2)).
Proof.
rewrite !step_scheduler_half10.
have -> : Z.div (Z.of_nat (9 + 1)) 10 = 1%stdZ by [].
have -> : Z.div (Z.of_nat (19 + 1)) 10 = 2%stdZ by [].
rewrite powerRZ_1 powerRZ_half_2 !mul1r; split=> -[] /eqP.
- by rewrite invr_eq1 (eqr_nat _ 2 1).
- by rewrite (inj_eq invr_inj) (eqr_nat _ 4 2).
Qed.

(** C5, amended.  For [alpha = 0.5], [step = 10] and every [lr], the rate
    is [lr] up to [i = 8], [lr * 0.5] for [i] from 9 to 18 and [lr * 0.25]
    from 19 on: [scheduler(9, lr) = lr * 0.5], [scheduler(10, lr) = lr * 0.5],
    [scheduler(19, lr) = lr * 0.25], [scheduler(20, lr) = lr * 0.25]. *)
Theorem step_scheduler_staircase (lr : R) :
  [/\ step_scheduler (1 / 2) 10 8 lr = Ok lr,
      step_scheduler (1 / 2) 10 9 lr = Ok (lr * (1 / 2)),
      step_scheduler (1 / 2) 10 10 lr = Ok (lr * (1 / 2))
    & step_scheduler (1 / 2) 10 18 lr = Ok (lr * (1 / 2))] /\
  step_scheduler (1 / 2) 10 19 lr = Ok (lr * (1 / 4)) /\
  step_scheduler (1 / 2) 10 20 lr = Ok (lr * (1 / 4)).
Proof.
rewrite !step_scheduler_half10.
have -> : Z.div (Z.of_nat (8 + 1)) 10 = 0%stdZ by [].
have -> : Z.div (Z.of_nat (9 + 1)) 10 = 1%stdZ by [].
have -> : Z.div (Z.of_nat (10 + 1)) 10 = 1%stdZ by [].
have -> : Z.div (Z.of_nat (18 + 1)) 10 = 1%stdZ by [].
have -> : Z.div (Z.of_nat (19 + 1)) 10 = 2%stdZ by [].
have -> : Z.div (Z.of_nat (20 + 1)) 10 = 2%stdZ by [].
by rewrite powerRZ_1 powerRZ_half_2 /powerRZ mulr1.
Qed.

(** ** Dictionaries, comprehensions and entrywise operations *)

Section DictFacts.

Implicit Types (d : dict) (k : string) (ks : seq string) (a b : tensor).

Lemma getitem_in d k : k \in keys d -> getitem d k = Ok (getd d k).
Proof.
rewrite /getd; elim: d => [//|[k' x] d IHd] /=.
by rewrite inE eq_sym; case: eqP => //= _ /IHd.
Qed.

Lemma getitem_notin d k : k \notin keys d -> getitem d k = Raise (KeyError k).
Proof.
elim: d => [//|[k' x] d IHd] /=.
by rewrite inE eq_sym negb_or; case: eqP => //= _ /IHd.
Qed.

Lemma keys_tabulate ks (F : string -> tensor) :
  keys [seq (k, F k) | k <- ks] = ks.
Proof. by rewrite /keys -map_comp map_id_in. Qed.

Lemma getd_tabulate ks (F : string -> tensor) k :
  k \in ks -> getd [seq (k, F k) | k <- ks] k = F k.
Proof.
rewrite /getd; elim: ks => [//|k' ks IHks] /=.
by rewrite inE eq_sym; case: eqP => [->|_] //= /IHks.
Qed.

(** A comprehension whose bodies all return builds the table of their
    values. *)
Lemma dict_comp_ok ks (body : string -> result tensor) (F : string -> tensor) :
  (forall k, k \in ks -> body k = Ok (F k)) ->
  dict_comp ks body = Ok [seq (k, F k) | k <- ks].
Proof.
elim: ks => [//|k ks IHks] bodyF /=.
rewrite bodyF ?mem_head //= IHks // => k' k'ks.
by rewrite bodyF // inE k'ks orbT.
Qed.

(** A comprehension stops at the first body that raises. *)
Lemma dict_comp_raise ks1 k ks2 (body : string -> result tensor) e :
  (forall k', k' \in ks1 -> is_ok (body k')) ->
  body k = Raise e ->
  dict_comp (ks1 ++ k :: ks2) body = Raise e.
Proof.
elim: ks1 => [_ /= -> //|k1 ks1 IHks1] oks raises /=.
have := oks k1 (mem_head _ _); case: (body k1) => //= x _.
by rewrite IHks1 // => k' k'ks; rewrite oks // inE k'ks orbT.
Qed.

Lemma size_map2 (f : R -> R -> R) a b :
  size (map2 f a b) = minn (size a) (size b).
Proof. by rewrite /map2 size_map size_zip. Qed.

Lemma nth_map2 (f : R -> R -> R) a b j :
  (j < size a)%N -> (j < size b)%N ->
  nth 0 (map2 f a b) j = f (nth 0 a j) (nth 0 b j).
Proof.
move=> ja jb; rewrite /map2 (nth_map (0, 0)) ?size_zip ?leq_min ?ja //.
by rewrite nth_zip_cond size_zip leq_min ja jb.
Qed.

Lemma broadcast2_same (f : R -> R -> R) a b :
  size a = size b -> broadcast2 f a b = Ok (map2 f a b).
Proof. by rewrite /broadcast2 => ->; rewrite eqxx. Qed.

Lemma size_smul c a : size (smul c a) = size a.
Proof. exact: size_map. Qed.

Lemma size_tdiv_s a c : size (tdiv_s a c) = size a.
Proof. exact: size_map. Qed.

Lemma size_tadd_s a c : size (tadd_s a c) = size a.
Proof. exact: size_map. Qed.

Lemma size_torch_sqrt a : size (torch_sqrt a) = size a.
Proof. exact: size_map. Qed.

Lemma nth_smul c a j : (j < size a)%N -> nth 0 (smul c a) j = c * nth 0 a j.
Proof. by move=> ja; rewrite (nth_map 0). Qed.

Lemma nth_tdiv_s a c j :
  (j < size a)%N -> nth 0 (tdiv_s a c) j = nth 0 a j / c.
Proof. by move=> ja; rewrite (nth_map 0). Qed.

Lemma nth_tadd_s a c j :
  (j < size a)%N -> nth 0 (tadd_s a c) j = nth 0 a j + c.
Proof. by move=> ja; rewrite (nth_map 0). Qed.

Lemma nth_torch_sqrt a j :
  (j < size a)%N -> nth 0 (torch_sqrt a) j = sqrt (nth 0 a j).
Proof. by move=> ja; rewrite (nth_map 0). Qed.

End DictFacts.

(** ** [Adam.update], line by line *)

Section UpdateRuns.

Import Adam.

Variables (self : Adam.t) (params g : dict) (lr : R).

(** Every key of [g] is a key of [params] and of the two moment
    dictionaries, and the four tensors under such a key have one shape. *)
Hypothesis g_params : {subset keys g <= keys params}.
Hypothesis g_m : {subset keys g <= keys (m self)}.
Hypothesis g_v : {subset keys g <= keys (v self)}.
Hypothesis shape_g :
  forall k, k \in keys g -> size (getd g k) = size (getd params k).
Hypothesis shape_m :
  forall k, k \in keys g -> size (getd (m self) k) = size (getd params k).
Hypothesis shape_v :
  forall k, k \in keys g -> size (getd (v self) k) = size (getd params k).

Local Notation G1 := (decayed_grad self params g).
Local Notation M1 := (new_m self params g).
Local Notation V1 := (new_v self params g).
Local Notation MH := (m_hat self params g).
Local Notation VH := (v_hat self params g).
Local Notation NP := (new_param self params g lr).

Let sz k := size (getd params k).

Lemma size_G1 k : k \in keys g -> size (G1 k) = sz k.
Proof. by move=> kg; rewrite size_map2 size_smul shape_g // minnn. Qed.

Lemma size_M1 k : k \in keys g -> size (M1 k) = sz k.
Proof.
by move=> kg; rewrite size_map2 !size_smul size_G1 // shape_m // minnn.
Qed.

Lemma size_V1 k : k \in keys g -> size (V1 k) = sz k.
Proof.
move=> kg; rewrite size_map2 size_map2 !size_smul size_G1 // shape_v //.
by rewrite !minnn.
Qed.

Lemma size_MH k : k \in keys g -> size (MH k) = sz k.
Proof. by move=> kg; rewrite size_tdiv_s size_M1. Qed.

Lemma size_VH k : k \in keys g -> size (VH k) = sz k.
Proof. by move=> kg; rewrite size_tdiv_s size_V1. Qed.

Lemma size_quot k :
  k \in keys g ->
  size (map2 (fun x y => x / y) (smul lr (MH k))
          (tadd_s (torch_sqrt (VH k)) (eps self))) = sz k.
Proof.
move=> kg; rewrite size_map2 size_smul size_MH //.
by rewrite size_tadd_s size_torch_sqrt size_VH // minnn.
Qed.

Lemma size_NP k : k \in keys g -> size (NP k) = sz k.
Proof. by move=> kg; rewrite size_map2 size_quot // minnn. Qed.

Local Notation after_moments := (after_moments self params g).

(** Lines 41 to 45 run without an exception and store the new moments;
    what is left is the comprehension of line 46 over the keys of
    [params]. *)
Lemma update_reaches_last_line :
  update params g self =
  (after_moments,
   dict_comp (keys params) (fun k =>
     pv <- getitem params k ;;
     lr <- scheduled_lr self ;;
     mh <- getitem [seq (k, MH k) | k <- keys g] k ;;
     vh <- getitem [seq (k, VH k) | k <- keys g] k ;;
     q <- tdiv (smul lr mh) (tadd_s (torch_sqrt vh) (eps self)) ;;
     tsub pv q)).
Proof.
rewrite /update /mbind /read /lift /assign /=.
rewrite (dict_comp_ok (F := G1)).
  move=> k kg; rewrite getitem_in // getitem_in ?g_params //=.
  by rewrite /tadd broadcast2_same // size_smul shape_g.
rewrite keys_tabulate (dict_comp_ok (F := M1)).
  move=> k kg; rewrite getitem_in ?keys_tabulate // getd_tabulate //=.
  rewrite getitem_in ?g_m //= /tadd broadcast2_same //.
  by rewrite !size_smul size_G1 // shape_m.
rewrite (dict_comp_ok (F := V1)).
  move=> k kg; rewrite getitem_in ?keys_tabulate // getd_tabulate //=.
  rewrite /tmul broadcast2_same ?size_smul //= getitem_in ?g_v //=.
  rewrite /tadd broadcast2_same // size_map2 !size_smul size_G1 //.
  by rewrite minnn shape_v.
rewrite (dict_comp_ok (F := MH)).
  by move=> k kg; rewrite getitem_in ?keys_tabulate // getd_tabulate.
rewrite (dict_comp_ok (F := VH)).
  by move=> k kg; rewrite getitem_in ?keys_tabulate // getd_tabulate.
by [].
Qed.

Hypothesis lr_ok : scheduled_lr self = Ok lr.

(** The body of line 46 under a key of [g], and under a key [g] lacks. *)
Lemma last_line_in k :
  k \in keys params -> k \in keys g ->
  (pv <- getitem params k ;;
   lr <- scheduled_lr self ;;
   mh <- getitem [seq (k, MH k) | k <- keys g] k ;;
   vh <- getitem [seq (k, VH k) | k <- keys g] k ;;
   q <- tdiv (smul lr mh) (tadd_s (torch_sqrt vh) (eps self)) ;;
   tsub pv q) = Ok (NP k).
Proof.
move=> kp kg; rewrite getitem_in //= lr_ok /=.
rewrite !getitem_in ?keys_tabulate // !getd_tabulate //=.
have same_size :
  size (smul lr (MH k)) = size (tadd_s (torch_sqrt (VH k)) (eps self)).
  by rewrite size_smul size_MH // size_tadd_s size_torch_sqrt size_VH.
rewrite /tdiv (broadcast2_same _ same_size) /=.
by rewrite /tsub broadcast2_same // size_quot.
Qed.

Lemma last_line_notin k :
  k \in keys params -> k \notin keys g ->
  (pv <- getitem params k ;;
   lr <- scheduled_lr self ;;
   mh <- getitem [seq (k, MH k) | k <- keys g] k ;;
   vh <- getitem [seq (k, VH k) | k <- keys g] k ;;
   q <- tdiv (smul lr mh) (tadd_s (torch_sqrt vh) (eps self)) ;;
   tsub pv q) = Raise (KeyError k).
Proof.
move=> kp kg; rewrite getitem_in //= lr_ok /=.
by rewrite getitem_notin // keys_tabulate.
Qed.

(** With every key of [params] in [g], [update] returns. *)
Lemma update_runs :
  {subset keys params <= keys g} ->
  update params g self =
  (after_moments, Ok [seq (k, NP k) | k <- keys params]).
Proof.
move=> params_g; rewrite update_reaches_last_line.
rewrite (dict_comp_ok (F := NP)) // => k kp.
by rewrite last_line_in // params_g.
Qed.

(** With a key of [params] that [g] lacks, [update] raises at that key,
    after the moments have been replaced. *)
Lemma update_raises_late ps1 k ps2 :
  keys params = ps1 ++ k :: ps2 ->
  {subset ps1 <= keys g} -> k \notin keys g ->
  update params g self = (after_moments, Raise (KeyError k)).
Proof.
move=> params_split ps1_g k_g; rewrite update_reaches_last_line.
have in_params k' : k' \in ps1 ++ k :: ps2 -> k' \in keys params.
  by rewrite params_split.
rewrite {1}params_split (@dict_comp_raise ps1 k ps2 _ (KeyError k)) //.
- move=> k' k'ps1; rewrite last_line_in ?ps1_g //.
  by rewrite in_params // mem_cat k'ps1.
- by rewrite last_line_notin // in_params // mem_cat mem_head orbT.
Qed.

Variables (k : string) (j : nat).
Hypothesis k_g : k \in keys g.
Hypothesis j_shape : (j < size (getd params k))%N.

Let p := nth 0 (getd params k) j.
Let gr := nth 0 (getd g k) j.
Let mo := nth 0 (getd (m self) k) j.
Let vo := nth 0 (getd (v self) k) j.

Let jG : (j < size (G1 k))%N.
Proof. by rewrite size_G1. Qed.

Lemma nth_G1 : nth 0 (G1 k) j = gr + weight_decay self * p.
Proof. by rewrite nth_map2 ?size_smul ?shape_g // nth_smul. Qed.

Lemma nth_M1 : nth 0 (M1 k) j = spec_new_m self p gr mo.
Proof.
rewrite nth_map2 ?size_smul ?shape_m //.
by rewrite !nth_smul ?shape_m // nth_G1.
Qed.

Lemma nth_V1 : nth 0 (V1 k) j = spec_new_v self p gr vo.
Proof.
have jGG : (j < size (map2 *%R (smul (1 - b2 self) (G1 k)) (G1 k)))%N.
  by rewrite size_map2 size_smul minnn.
rewrite nth_map2 ?size_smul ?shape_v //.
rewrite nth_map2 ?size_smul // !nth_smul ?shape_v // nth_G1.
by rewrite /spec_new_v expr2 mulrA.
Qed.

Lemma nth_NP : nth 0 (NP k) j = spec_update_entry self lr p gr mo vo.
Proof.
have jMH : (j < size (smul lr (MH k)))%N by rewrite size_smul size_MH.
have jVH : (j < size (tadd_s (torch_sqrt (VH k)) (eps self)))%N.
  by rewrite size_tadd_s size_torch_sqrt size_VH.
have jQ : (j < size (map2 (fun x y => (x / y)%R) (smul lr (MH k))
                       (tadd_s (torch_sqrt (VH k)) (eps self))))%N.
  by rewrite size_quot.
rewrite nth_map2 // nth_map2 //.
rewrite nth_smul ?size_MH // nth_tadd_s ?size_torch_sqrt ?size_VH //.
rewrite nth_torch_sqrt ?size_VH // !nth_tdiv_s ?size_M1 ?size_V1 //.
by rewrite nth_M1 nth_V1.
Qed.

End UpdateRuns.

(** A key of [g] that [params] lacks makes line 41 raise, before anything
    is assigned. *)
Lemma update_raises_early (self : Adam.t) (params g : dict) gs1 k gs2 :
  keys g = gs1 ++ k :: gs2 ->
  {subset gs1 <= keys params} ->
  (forall k', k' \in gs1 -> size (getd g k') = size (getd params k')) ->
  k \notin keys params ->
  Adam.update params g self = (self, Raise (KeyError k)).
Proof.
move=> g_split gs1_params shape_g k_params.
have in_g k' : k' \in gs1 ++ k :: gs2 -> k' \in keys g by rewrite g_split.
rewrite /Adam.update /Adam.mbind /Adam.read /Adam.lift /=.
rewrite {1}g_split (@dict_comp_raise gs1 k gs2 _ (KeyError k)) //.
- move=> k' k'gs1; rewrite getitem_in ?in_g ?mem_cat ?k'gs1 //=.
  rewrite getitem_in ?gs1_params //= /tadd broadcast2_same //.
  by rewrite size_smul shape_g.
- rewrite getitem_in ?in_g ?mem_cat ?mem_head ?orbT //=.
  by rewrite getitem_notin.
Qed.

(** ** The claims on [Adam] *)

(** Under the documented ranges of [b1] and [b2] the bias corrections
    divide by a positive number. *)
Lemma bias_correction_gt0 (b : R) (n : nat) :
  0 <= b < 1 -> 0 < 1 - b ^+ (n + 1).
Proof. by case/andP=> b_ge0 b_lt1; rewrite subr_gt0 exprn_ilt1 // addn1. Qed.

(** C3.  When [params], [g] and the stored moments have the same keys, the
    tensors under a key have one shape, and the effective learning rate
    [lr_eff] is [scheduler(i, learning_rate)] if a scheduler is configured
    and [learning_rate] otherwise, then [update(params, g)] returns a
    mapping over the keys of [params] whose entry [j] under key [k] is
    [p - lr_eff * mhat / (sqrt(vhat) + eps)], with
    [g' = g + weight_decay * p], new [m = (1 - b1) g' + b1 m],
    new [v = (1 - b2) g'^2 + b2 v], [mhat = m / (1 - b1^(i+1))] and
    [vhat = v / (1 - b2^(i+1))], [i] being the counter before the call.
    The new moments are the ones stored by the call. *)
Theorem update_formula (self : Adam.t) (params g : dict) (lr_eff : R) :
  {subset keys params <= keys g} ->
  {subset keys g <= keys params} ->
  {subset keys g <= keys (Adam.m self)} ->
  {subset keys g <= keys (Adam.v self)} ->
  (forall k, k \in keys g ->
     [/\ size (getd g k) = size (getd params k),
         size (getd (Adam.m self) k) = size (getd params k)
       & size (getd (Adam.v self) k) = size (getd params k)]) ->
  spec_lr_eff self = Ok lr_eff ->
  exists (self' : Adam.t) (new_params : dict),
    [/\ Adam.update params g self = (self', Ok new_params),
        keys new_params = keys params
      & forall k j, k \in keys params -> (j < size (getd params k))%N ->
          let p := nth 0 (getd params k) j in
          let gr := nth 0 (getd g k) j in
          let mo := nth 0 (getd (Adam.m self) k) j in
          let vo := nth 0 (getd (Adam.v self) k) j in
          [/\ size (getd new_params k) = size (getd params k),
              nth 0 (getd new_params k) j =
                spec_update_entry self lr_eff p gr mo vo,
              nth 0 (getd (Adam.m self') k) j = spec_new_m self p gr mo
            & nth 0 (getd (Adam.v self') k) j = spec_new_v self p gr vo]].
Proof.
move=> params_g g_params g_m g_v shapes lr_ok.
have shape_g k : k \in keys g -> size (getd g k) = size (getd params k).
  by case/shapes.
have shape_m k :
    k \in keys g -> size (getd (Adam.m self) k) = size (getd params k).
  by case/shapes.
have shape_v k :
    k \in keys g -> size (getd (Adam.v self) k) = size (getd params k).
  by case/shapes.
eexists; eexists; split.
- exact: (update_runs g_params g_m g_v shape_g shape_m shape_v lr_ok).
- exact: keys_tabulate.
- move=> k j k_params j_shape /=; have kg := params_g _ k_params.
  rewrite !getd_tabulate //; split.
  + exact: size_NP.
  + exact: nth_NP.
  + exact: nth_M1.
  + exact: nth_V1.
Qed.

Lemma update_formula_witness :
  exists (self' : Adam.t) (new_params : dict),
    Adam.update params_w g_w (defaults params_w) = (self', Ok new_params) /\
    keys new_params = keys params_w.
Proof.
have shapes k : k \in keys g_w ->
    [/\ size (getd g_w k) = size (getd params_w k),
        size (getd (Adam.m (defaults params_w)) k) = size (getd params_w k)
      & size (getd (Adam.v (defaults params_w)) k) = size (getd params_w k)].
  by rewrite inE => /eqP ->.
have [self' [new_params [run same_keys _]]] :=
  @update_formula (defaults params_w) params_w g_w _
    (fun k kp => kp) (fun k kg => kg) (fun k kg => kg) (fun k kg => kg)
    shapes (step_scheduler_half10 0 (1 / 100)).
by exists self', new_params.
Defined.

Lemma zeros_likeE (t : tensor) : zeros_like t = nseq (size t) 0.
Proof. by elim: t => [//|x t IHt]; rewrite /zeros_like /= -/(zeros_like t) IHt. Qed.

(** Dictionaries of one shape have one table of zeros. *)
Lemma zeros_of_shapes (params0 params : dict) :
  shapes params0 = shapes params ->
  [seq (kv.1, zeros_like kv.2) | kv <- params0] =
  [seq (kv.1, zeros_like kv.2) | kv <- params].
Proof.
elim: params0 params => [|[k0 t0] params0 IH] [|[k t] params] //=.
by case=> -> same_size /IH ->; rewrite !zeros_likeE same_size.
Qed.

(** C6.  [reset(params)] leaves any instance, whatever its history, in the
    state of a fresh instance built with the same hyperparameters from
    parameters of the keys and shapes of [params]: zero moments shaped like
    [params] and [i = 0].  Hence [update(params, g)] after the reset yields
    what the first [update(params, g)] of the fresh instance yields, value
    or exception, and leaves the same state. *)
Theorem reset_then_update (self : Adam.t) (params0 params g : dict) :
  shapes params0 = shapes params ->
  let fresh :=
    Adam.init params0 (Adam.dev self) (Adam.scheduler self)
      (Adam.learning_rate self) (Adam.b1 self) (Adam.b2 self)
      (Adam.eps self) (Adam.weight_decay self) in
  let self0 := (Adam.reset params self).1 in
  [/\ Adam.reset params self = (fresh, Ok tt),
      Adam.m self0 = [seq (kv.1, nseq (size kv.2) 0) | kv <- params],
      Adam.v self0 = [seq (kv.1, nseq (size kv.2) 0) | kv <- params],
      Adam.i self0 = 0%N
    & Adam.update params g self0 = Adam.update params g fresh].
Proof.
move=> same_shapes fresh self0.
have zerosE :
  [seq (kv.1, zeros_like kv.2) | kv <- params] =
  [seq (kv.1, nseq (size kv.2) 0) | kv <- params].
  by apply: eq_map => kv; rewrite zeros_likeE.
have reset_fresh : Adam.reset params self = (fresh, Ok tt).
  rewrite /fresh /Adam.init /to_device (zeros_of_shapes same_shapes).
  by [].
by split; rewrite // /self0 ?reset_fresh //= /to_device zerosE.
Qed.

Lemma reset_then_update_witness :
  Adam.update params_w g_w (Adam.reset params_w (defaults params_w')).1 =
  Adam.update params_w g_w (defaults params_w).
Proof.
by have [_ _ _ _ ->] :=
  @reset_then_update (defaults params_w') params_w params_w g_w erefl.
Defined.

(** [update] is a sequence of six comprehensions: unfold the method and
    case on the outcome of the next one. *)
Ltac unfold_update :=
  rewrite /Adam.update /Adam.mbind /Adam.read /Adam.lift /Adam.assign /=.

Ltac next_comprehension :=
  case: (dict_comp _ _) => [?|?] /=.

(** What [update] leaves of the instance, on every path. *)
Lemma update_keeps_attributes (self : Adam.t) (params g : dict) :
  let self' := (Adam.update params g self).1 in
  self' = Adam.set_v (Adam.set_m self (Adam.m self')) (Adam.v self').
Proof.
unfold_update.
next_comprehension; last by case: self.
next_comprehension; last by case: self.
next_comprehension; last by case: self.
next_comprehension; last by case: self.
by next_comprehension; case: self.
Qed.

Lemma dict_comp_keys ks (body : string -> result tensor) (d : dict) :
  dict_comp ks body = Ok d -> keys d = ks.
Proof.
elim: ks d => [|k ks IHks] d /=; first by case=> <-.
case: (body k) => //= x; case: (dict_comp ks body) IHks => //= d' IHks.
by case=> <- /=; rewrite (IHks d').
Qed.

Lemma update_returns_keys (self : Adam.t) (params g new_params : dict) :
  (Adam.update params g self).2 = Ok new_params ->
  keys new_params = keys params.
Proof.
unfold_update; do 5 (next_comprehension => //).
exact: dict_comp_keys.
Qed.

(** C7.  [update(params, g)] changes no attribute of the instance other
    than [m] and [v]; in particular [i] is unchanged.  It receives [params]
    as a value and builds the mapping it returns by a comprehension over
    the keys of [params]: the source applies no in-place operation to
    [params] or to its tensors.  [step()] adds one to [i] and changes
    nothing else. *)
Theorem update_and_step_frame (self : Adam.t) (params g : dict) :
  let self' := (Adam.update params g self).1 in
  [/\ self' = Adam.set_v (Adam.set_m self (Adam.m self')) (Adam.v self'),
      Adam.i self' = Adam.i self,
      forall new_params,
        (Adam.update params g self).2 = Ok new_params ->
        keys new_params = keys params
    & Adam.step self = (Adam.set_i self (Adam.i self + 1), Ok tt)].
Proof.
split=> //; first exact: update_keeps_attributes.
- by rewrite update_keeps_attributes.
- by move=> new_params; exact: update_returns_keys.
Qed.

Lemma update_and_step_frame_witness :
  Adam.i (Adam.update params_w g_w (defaults params_w)).1 = 0%N /\
  Adam.step (defaults params_w) =
    (Adam.set_i (defaults params_w) 1, Ok tt).
Proof.
by have [_ -> _ ->] := update_and_step_frame (defaults params_w) params_w g_w.
Defined.

(** C10, as stated, fails when [g] has a key that [params] lacks: with
    [params = {w}] and [g = {w, b}] the call raises [KeyError('b')] on
    line 41 and the instance is untouched; its moments are still keyed by
    [w] alone, not by the keys of [g]. *)
Lemma extra_key_leaves_state :
  Adam.update params_w g_wb (defaults params_w) =
    (defaults params_w, Raise (KeyError "b")) /\
  keys (Adam.m (Adam.update params_w g_wb (defaults params_w)).1) <> keys g_wb.
Proof.
have raises :
  Adam.update params_w g_wb (defaults params_w) =
    (defaults params_w, Raise (KeyError "b")).
  by apply: (@update_raises_early _ _ _ [:: "w"%string] "b"%string [::]) => // k;
     rewrite inE => /eqP ->.
by rewrite raises.
Qed.

(** C10, amended.  No dedicated error type exists; a key mismatch surfaces
    as a plain [KeyError], at a point that depends on its direction.
    (a) When [g] lacks a key [k] of [params] (the keys of [g] being keys of
    [params] and of the stored moments, with matching shapes), the call
    raises [KeyError(k)] on its last line, after [m] and [v] have been
    replaced by dictionaries over the keys of [g]: the failure is not
    atomic.  (b) When [g] has a key [k] that [params] lacks, the call raises
    [KeyError(k)] on its first line and the instance is unchanged. *)
Theorem update_key_mismatch (self : Adam.t) (params g : dict) (lr : R) :
  (forall ps1 k ps2,
     {subset keys g <= keys params} ->
     {subset keys g <= keys (Adam.m self)} ->
     {subset keys g <= keys (Adam.v self)} ->
     (forall k', k' \in keys g ->
        [/\ size (getd g k') = size (getd params k'),
            size (getd (Adam.m self) k') = size (getd params k')
          & size (getd (Adam.v self) k') = size (getd params k')]) ->
     Adam.scheduled_lr self = Ok lr ->
     keys params = ps1 ++ k :: ps2 ->
     {subset ps1 <= keys g} -> k \notin keys g ->
     exists self',
       [/\ Adam.update params g self = (self', Raise (KeyError k)),
           keys (Adam.m self') = keys g
         & keys (Adam.v self') = keys g]) /\
  (forall gs1 k gs2,
     keys g = gs1 ++ k :: gs2 ->
     {subset gs1 <= keys params} ->
     (forall k', k' \in gs1 -> size (getd g k') = size (getd params k')) ->
     k \notin keys params ->
     Adam.update params g self = (self, Raise (KeyError k))).
Proof.
split; last exact: update_raises_early.
move=> ps1 k ps2 g_params g_m g_v shapes lr_ok params_split ps1_g k_g.
exists (after_moments self params g); split.
- apply: (update_raises_late _ _ _ _ _ _ lr_ok params_split) => // k' k'g;
    by case: (shapes k' k'g).
- exact: keys_tabulate.
- exact: keys_tabulate.
Qed.

Lemma update_key_mismatch_witness :
  (exists self',
     [/\ Adam.update params_wb g_w (defaults params_wb) =
           (self', Raise (KeyError "b")),
         keys (Adam.m self') = [:: "w"%string]
       & keys (Adam.v self') = [:: "w"%string]]) /\
  Adam.update params_w g_wb (defaults params_w) =
    (defaults params_w, Raise (KeyError "b")).
Proof.
have [late _] := update_key_mismatch (defaults params_wb) params_wb g_w
                   (1 / 100 * powerRZ (1 / 2) (Z.div (Z.of_nat (0 + 1)) 10)).
have [_ early] := update_key_mismatch (defaults params_w) params_w g_wb 0.
have in_w (ks : seq string) :
    "w"%string \in ks -> {subset keys g_w <= ks}.
  by move=> w_ks k; rewrite inE => /eqP ->.
split.
- apply: (late [:: "w"%string] "b"%string [::]) => //; try exact: in_w.
  + by move=> k; rewrite inE => /eqP ->.
  + exact: step_scheduler_half10.
- by apply: (early [:: "w"%string] "b"%string [::]) => // k;
     rewrite inE => /eqP ->.
Defined.

(** ** More on [MatrixInverse] and [MatrixLogDet]

    The symmetry of the inverse, and a diagonal [D] with a negative
    entry. *)

Lemma inner_sym Npix Nh (M : 'M[R]_(Npix, Nh)) (D : 'rV[R]_Npix)
    (dv : device) :
  (inner M D dv)^T = inner M D dv.
Proof.
rewrite /inner /to_device /torch_eye /torch_diag linearD /= trmx1.
by rewrite !trmx_mul trmxK tr_diag_mx mulmxA.
Qed.

(** X2.  Whatever [M] and [D], a matrix returned by [MatrixInverse] is
    symmetric. *)
Theorem MatrixInverse_symmetric Npix Nh (M : 'M[R]_(Npix, Nh))
    (D : 'rV[R]_Npix) (dv : device) (S : 'M[R]_Npix) :
  MatrixInverse M D dv = Ok S -> S^T = S.
Proof.
rewrite /MatrixInverse /linalg_inv -/(inner M D dv).
case: ifP => //= _ [<-]; rewrite /torch_diag linearB /=.
by rewrite !trmx_mul trmxK tr_diag_mx trmx_inv inner_sym !mulmxA.
Qed.

Lemma MatrixInverse_symmetric_witness :
  let M : 'M[R]_(2, 1) := const_mx 1 in
  let D : 'rV[R]_2 := const_mx 2 in
  let Dinv := torch_diag (recip D) in
  let S := Dinv - Dinv *m M *m invmx (inner M D (Device "cpu")) *m M^T
                  *m Dinv in
  MatrixInverse M D (Device "cpu") = Ok S /\ S^T = S.
Proof.
move=> M D Dinv S.
have D_gt0 : forall p, 0 < D 0 p by move=> p; rewrite mxE ltr0n.
have run : MatrixInverse M D (Device "cpu") = Ok S.
  rewrite /MatrixInverse /linalg_inv -/(inner M D (Device "cpu")).
  by rewrite (inner_unit M (Device "cpu") D_gt0).
by split; [exact: run | exact: (MatrixInverse_symmetric run)].
Defined.

Lemma xadd_NaNl (x : xreal) : xadd NaN x = NaN.
Proof. by []. Qed.

(** One [nan] term makes the whole [torch.sum] a [nan]. *)
Lemma torch_sum_NaN (n : nat) (x : 'I_n -> xreal) (p : 'I_n) :
  x p = NaN -> torch_sum x = NaN.
Proof.
rewrite /torch_sum => xp.
have: p \in index_enum [the finType of 'I_n] by rewrite mem_index_enum.
elim: (index_enum _) => [//|q r IHr]; rewrite big_cons inE.
case/orP=> [/eqP <-|/IHr ->]; first by rewrite xp.
exact: xadd_NaN.
Qed.

(** X3.  One negative entry of [D] makes [MatrixLogDet] return [nan],
    whatever [M] and the other entries: also where [M M^T + diag D] has a
    positive determinant. *)
Theorem MatrixLogDet_negative_entry Npix Nh (M : 'M[R]_(Npix, Nh))
    (D : 'rV[R]_Npix) (dv : device) (p : 'I_Npix) :
  D 0 p < 0 -> MatrixLogDet M D dv = Ok NaN.
Proof.
move=> Dp_lt0; rewrite /MatrixLogDet (@torch_sum_NaN _ _ p) //.
by rewrite (torch_log_nonpos (ltW Dp_lt0)) lt_eqF.
Qed.

Lemma MatrixLogDet_negative_entry_witness :
  let M : 'M[R]_(1, 1) := const_mx 2 in
  let D : 'rV[R]_1 := const_mx (- 1) in
  0 < \det (M *m M^T + diag_mx D) /\
  MatrixLogDet M D (Device "cpu") = Ok NaN.
Proof.
move=> M D; split.
  rewrite det_mx11 !mxE big_ord1 !mxE eqxx mulr1n.
  by rewrite -natrM subr_gt0 ltr1n.
by apply: (@MatrixLogDet_negative_entry _ _ M D _ ord0); rewrite mxE oppr_lt0.
Defined.

(** ** More on [step_scheduler]

    The scheduler for a positive [step], where the floor division of
    Python is the division of natural numbers, and its failures. *)

Lemma pow_exprn (x : R) (n : nat) : pow x n = x ^+ n.
Proof. by elim: n => [//|n IHn]; rewrite exprS -IHn. Qed.

Lemma powerRZ_of_nat (x : R) (n : nat) : powerRZ x (Z.of_nat n) = x ^+ n.
Proof. by rewrite -pow_powerRZ pow_exprn. Qed.

(** Floor division of Python on non-negative integers is the division of
    natural numbers. *)
Lemma Zdiv_of_nat (a s : nat) :
  (0 < s)%N -> Z.div (Z.of_nat a) (Z.of_nat s) = Z.of_nat (a %/ s).
Proof.
move=> s_gt0; symmetry; apply: (Z.div_unique_pos _ _ _ (Z.of_nat (a %% s))).
  by have /ssrnat.ltP := ltn_pmod a s_gt0; Lia.lia.
rewrite {1}(divn_eq a s) -plusE -multE; Lia.lia.
Qed.

Lemma step_scheduler_nat (alpha : R) (s i : nat) (lr : R) :
  (0 < s)%N ->
  step_scheduler alpha (Z.of_nat s) i lr = Ok (lr * alpha ^+ ((i + 1) %/ s)).
Proof.
move=> s_gt0; rewrite /step_scheduler Zdiv_of_nat // powerRZ_of_nat.
have -> : Z.eqb (Z.of_nat s) 0 = false.
  by apply/Z.eqb_neq; move/ssrnat.ltP: s_gt0; Lia.lia.
have -> : Z.ltb (Z.of_nat ((i + 1) %/ s)) 0 = false by apply/Z.ltb_ge; Lia.lia.
by rewrite andbF.
Qed.

(** X4.  With a positive [step], the scheduler returns the base rate
    unchanged while [i + 1 < step], and [step] iterations later it returns
    [alpha] times what it returns now. *)
Theorem step_scheduler_staircase_shape (alpha : R) (s i : nat) (lr r : R) :
  (0 < s)%N ->
  ((i + 1 < s)%N -> step_scheduler alpha (Z.of_nat s) i lr = Ok lr) /\
  (step_scheduler alpha (Z.of_nat s) i lr = Ok r ->
   step_scheduler alpha (Z.of_nat s) (i + s) lr = Ok (r * alpha)).
Proof.
move=> s_gt0; rewrite !step_scheduler_nat //; split.
  by move=> early; rewrite divn_small // expr0 mulr1.
case=> <-; rewrite -addnA [(s + 1)%N]addnC addnA divnDr ?dvdnn //.
by rewrite divnn s_gt0 /= addn1 exprSr mulrA.
Qed.

Lemma step_scheduler_staircase_shape_witness :
  ((3 + 1 < 10)%N -> step_scheduler (1 / 2) (Z.of_nat 10) 3 1 = Ok 1) /\
  (step_scheduler (1 / 2) (Z.of_nat 10) 3 1 = Ok 1 ->
   step_scheduler (1 / 2) (Z.of_nat 10) (3 + 10) 1 = Ok (1 * (1 / 2))).
Proof. exact: (@step_scheduler_staircase_shape (1 / 2) 10 3 1 1 isT). Defined.

(** X5.  With a positive [step], a decay factor between 0 and 1 and a
    non-negative base rate, the scheduled rate never increases with the
    iteration, never exceeds the base rate and never becomes negative. *)
Theorem step_scheduler_decays (alpha : R) (s i j : nat) (lr : R) :
  (0 < s)%N -> 0 <= alpha <= 1 -> 0 <= lr -> (i <= j)%N ->
  exists ri rj,
    [/\ step_scheduler alpha (Z.of_nat s) i lr = Ok ri,
        step_scheduler alpha (Z.of_nat s) j lr = Ok rj
      & 0 <= rj <= ri /\ ri <= lr].
Proof.
move=> s_gt0 /andP[a_ge0 a_le1] lr_ge0 le_ij.
exists (lr * alpha ^+ ((i + 1) %/ s)), (lr * alpha ^+ ((j + 1) %/ s)).
have pow_le : alpha ^+ ((j + 1) %/ s) <= alpha ^+ ((i + 1) %/ s).
  by apply: ler_wiXn2l; rewrite ?a_ge0 ?a_le1 // leq_div2r // leq_add2r.
have pow_le1 : alpha ^+ ((i + 1) %/ s) <= 1 by apply: exprn_ile1.
rewrite !step_scheduler_nat //; split=> //; split.
  by rewrite mulr_ge0 ?exprn_ge0 //= ler_wpM2l.
by rewrite ler_piMr.
Qed.

Lemma step_scheduler_decays_witness :
  exists ri rj,
    [/\ step_scheduler (1 / 2) (Z.of_nat 10) 3 1 = Ok ri,
        step_scheduler (1 / 2) (Z.of_nat 10) 15 1 = Ok rj
      & 0 <= rj <= ri /\ ri <= 1].
Proof.
apply: (@step_scheduler_decays (1 / 2) 10 3 15 1) => //.
by rewrite divr_ge0 //= ler_pdivrMr ?ltr0n // mul1r ler1n.
Defined.

(** With a positive dividend, the floor quotient is negative exactly for a
    negative divisor. *)
Lemma Zdiv_neg_divisor (a step : Z) :
  Z.lt 0 a -> step <> 0%stdZ -> Z.ltb (Z.div a step) 0 = Z.ltb step 0.
Proof.
move=> a_gt0 step_neq0; have divmod := Z.div_mod a step step_neq0.
case: (Z.ltb_spec step 0) => step_sign.
- apply/Z.ltb_lt; have := Z.mod_neg_bound a step step_sign.
  by Lia.nia.
- apply/Z.ltb_ge; apply: Z.div_pos; Lia.lia.
Qed.

(** X6.  When [step] is zero, or [alpha] is zero and [step] negative, the
    scheduler raises [ZeroDivisionError], at every iteration and for every
    base rate. *)
Theorem step_scheduler_raises (alpha : R) (step : Z) (i : nat) (lr : R) :
  Z.eqb step 0 || (alpha == 0) && Z.ltb step 0 ->
  step_scheduler alpha step i lr = Raise ZeroDivisionError.
Proof.
rewrite /step_scheduler; case: Z.eqb_spec => [-> // | step_neq0] /= bad.
have i1_gt0 : Z.lt 0 (Z.of_nat (i + 1)).
  by rewrite addn1 Nat2Z.inj_succ; Lia.lia.
by rewrite Zdiv_neg_divisor // bad.
Qed.

Lemma step_scheduler_raises_witness :
  step_scheduler 0 (- 10) 3 1 = Raise ZeroDivisionError.
Proof. by apply: step_scheduler_raises; rewrite eqxx. Defined.

(** ** More on [Adam]

    The first update of a fresh instance, the shapes that [update] needs
    and keeps, and the two remaining ways in which it fails. *)

Lemma shapes_keys (d1 d2 : dict) : shapes d1 = shapes d2 -> keys d1 = keys d2.
Proof.
move=> same; rewrite /keys.
have -> : [seq kv.1 | kv <- d1] = [seq ks.1 | ks <- shapes d1].
  by rewrite /shapes -map_comp.
by rewrite same /shapes -map_comp.
Qed.

Lemma shapes_size (d1 d2 : dict) k :
  shapes d1 = shapes d2 -> size (getd d1 k) = size (getd d2 k).
Proof.
rewrite /getd; elim: d1 d2 => [|[k1 t1] d1 IH] [|[k2 t2] d2] //=.
by case=> -> same_size /IH; case: eqP.
Qed.

Lemma getd_zeros (d : dict) k :
  getd [seq (kv.1, zeros_like kv.2) | kv <- d] k = zeros_like (getd d k).
Proof.
by rewrite /getd; elim: d => [//|[k' t] d IHd] /=; case: eqP.
Qed.

Lemma keys_zeros (d : dict) :
  keys [seq (kv.1, zeros_like kv.2) | kv <- d] = keys d.
Proof. by rewrite /keys -map_comp. Qed.

Lemma nth_zeros_like (t : tensor) j : nth 0 (zeros_like t) j = 0.
Proof. by rewrite zeros_likeE nth_nseq; case: ifP. Qed.

Lemma size_zeros_like (t : tensor) : size (zeros_like t) = size t.
Proof. exact: size_map. Qed.

(** A fresh instance fits the parameters it was built from and any
    gradient of their shape. *)
Lemma init_fits (params g : dict) dv sched lr b1 b2 eps wd :
  shapes g = shapes params ->
  fits (Adam.init params dv sched lr b1 b2 eps wd) params g.
Proof.
move=> same; have same_keys := shapes_keys same.
split; rewrite /= /to_device ?keys_zeros ?same_keys // => k _.
by rewrite !getd_zeros !size_zeros_like (shapes_size k same).
Qed.

Lemma sqrt_sqr (x : R) : sqrt (x ^+ 2) = `|x|.
Proof. by rewrite expr2; exact: sqrt_Rsqr_abs. Qed.

(** The update rule on zero moments at [i = 0]: the bias corrections undo
    the factors [1 - b1] and [1 - b2]. *)
Lemma first_step_entry (self : Adam.t) (lr p gr : R) :
  Adam.i self = 0%N -> Adam.b1 self != 1 -> Adam.b2 self != 1 ->
  let g' := gr + Adam.weight_decay self * p in
  spec_update_entry self lr p gr 0 0 = p - lr * g' / (`|g'| + Adam.eps self).
Proof.
move=> i0 b1_neq1 b2_neq1 g'.
have nz1 : 1 - Adam.b1 self != 0 by rewrite subr_eq0 eq_sym.
have nz2 : 1 - Adam.b2 self != 0 by rewrite subr_eq0 eq_sym.
rewrite /spec_update_entry /spec_new_m /spec_new_v i0 add0n !expr1 -/g'.
by rewrite !mulr0 !addr0 ![(1 - _) * _]mulrC !mulfK // sqrt_sqr.
Qed.

Lemma step_below_rate (lr g' eps : R) :
  0 < eps -> `|lr * g' / (`|g'| + eps)| <= `|lr|.
Proof.
move=> eps_gt0; have den_gt0 : 0 < `|g'| + eps by rewrite ltr_wpDl.
rewrite -mulrA normrM ler_piMr // normrM normrV ?unitfE ?lt0r_neq0 //.
by rewrite (ger0_norm (ltW den_gt0)) ler_pdivrMr // mul1r lerDl ltW.
Qed.

Section Fits.

Variables (self : Adam.t) (params g : dict) (lr : R).
Hypothesis fit : fits self params g.

Let params_g : {subset keys params <= keys g}. Proof. by case: fit. Qed.
Let g_params : {subset keys g <= keys params}. Proof. by case: fit. Qed.
Let g_m : {subset keys g <= keys (Adam.m self)}. Proof. by case: fit. Qed.
Let g_v : {subset keys g <= keys (Adam.v self)}. Proof. by case: fit. Qed.

Let shape_g k : k \in keys g -> size (getd g k) = size (getd params k).
Proof. by case: fit => _ _ _ _ shapes /shapes []. Qed.

Let shape_m k :
  k \in keys g -> size (getd (Adam.m self) k) = size (getd params k).
Proof. by case: fit => _ _ _ _ shapes /shapes []. Qed.

Let shape_v k :
  k \in keys g -> size (getd (Adam.v self) k) = size (getd params k).
Proof. by case: fit => _ _ _ _ shapes /shapes []. Qed.

Lemma update_of_fits :
  Adam.scheduled_lr self = Ok lr ->
  Adam.update params g self =
  (after_moments self params g,
   Ok [seq (k, new_param self params g lr k) | k <- keys params]).
Proof. by move=> lr_ok; exact: update_runs. Qed.

Lemma new_param_entry k j :
  k \in keys params -> (j < size (getd params k))%N ->
  nth 0 (new_param self params g lr k) j =
  spec_update_entry self lr (nth 0 (getd params k) j) (nth 0 (getd g k) j)
    (nth 0 (getd (Adam.m self) k) j) (nth 0 (getd (Adam.v self) k) j).
Proof. by move=> /params_g kg j_lt; exact: nth_NP. Qed.

Lemma new_param_size k :
  k \in keys params -> size (new_param self params g lr k) = size (getd params k).
Proof. by move=> /params_g kg; exact: size_NP. Qed.

Lemma new_m_size k :
  k \in keys g -> size (new_m self params g k) = size (getd params k).
Proof. by move=> kg; exact: size_M1. Qed.

Lemma new_v_size k :
  k \in keys g -> size (new_v self params g k) = size (getd params k).
Proof. by move=> kg; exact: size_V1. Qed.

End Fits.

(** X7.  The first [update] of a fresh instance, on a gradient of the
    shapes of the parameters: each entry moves by
    [lr_eff * g' / (|g'| + eps)] with [g' = g + weight_decay * p], which
    depends on the sign of [g'] but hardly on its size, and never by more
    than the effective rate. *)
Theorem first_update (params g : dict) (dv : device)
    (sched : option (nat -> R -> result R)) (lr b1 b2 eps wd lr_eff : R) :
  let self := Adam.init params dv sched lr b1 b2 eps wd in
  shapes g = shapes params -> b1 != 1 -> b2 != 1 -> 0 < eps ->
  Adam.scheduled_lr self = Ok lr_eff ->
  exists (self' : Adam.t) (new_params : dict),
    [/\ Adam.update params g self = (self', Ok new_params),
        keys new_params = keys params
      & forall k j, k \in keys params -> (j < size (getd params k))%N ->
          let p := nth 0 (getd params k) j in
          let g' := nth 0 (getd g k) j + wd * p in
          [/\ size (getd new_params k) = size (getd params k),
              nth 0 (getd new_params k) j = p - lr_eff * g' / (`|g'| + eps)
            & `|nth 0 (getd new_params k) j - p| <= `|lr_eff|]].
Proof.
move=> self same b1_neq1 b2_neq1 eps_gt0 lr_ok.
have fit : fits self params g by exact: init_fits.
exists (after_moments self params g).
exists [seq (k, new_param self params g lr_eff k) | k <- keys params].
split; [exact: update_of_fits | exact: keys_tabulate |].
move=> k j k_params j_lt p g'; rewrite getd_tabulate //.
rewrite (new_param_entry _ fit) // /= /to_device !getd_zeros !nth_zeros_like.
rewrite (@first_step_entry self) // -/p -/g'; split=> //.
  exact: new_param_size.
by rewrite addrAC subrr sub0r normrN step_below_rate.
Qed.

Lemma nine_tenths_neq1 : (9 / 10 : R) != 1.
Proof. by rewrite lt_eqF // ltr_pdivrMr ?ltr0n // mul1r ltr_nat. Qed.

Lemma b2_default_neq1 : (999 / 1000 : R) != 1.
Proof. by rewrite lt_eqF // ltr_pdivrMr ?ltr0n // mul1r ltr_nat. Qed.

Lemma eps_default_gt0 : 0 < 1 / 10 ^+ 8 :> R.
Proof. by rewrite divr_gt0 // exprn_gt0 // ltr0n. Qed.

Lemma first_update_witness :
  exists (self' : Adam.t) (new_params : dict),
    Adam.update params_w g_w (defaults params_w) = (self', Ok new_params) /\
    keys new_params = keys params_w.
Proof.
have [self' [new_params [run same_keys _]]] :=
  @first_update params_w g_w (Device "cpu")
    (Some (step_scheduler (1 / 2) 10)) (1 / 100) (9 / 10) (999 / 1000)
    (1 / 10 ^+ 8) (1 / 1000) _ (erefl _) nine_tenths_neq1 b2_default_neq1
    eps_default_gt0 (step_scheduler_half10 0 (1 / 100)).
by exists self', new_params.
Defined.

Lemma tabulate_getd (d : dict) :
  uniq (keys d) -> [seq (k, getd d k) | k <- keys d] = d.
Proof.
elim: d => [//|[k t] d IHd] /= /andP[k_notin uniq_d].
rewrite {1}/getd /= eqxx -[in RHS](IHd uniq_d); congr (_ :: _).
apply/eq_in_map => k' k'_in; rewrite /getd /=.
by case: eqP => // k_k'; move: k_notin; rewrite k_k' k'_in.
Qed.

(** X8.  On a fresh instance without weight decay, a zero gradient
    leaves the parameters as they are. *)
Theorem zero_gradient_noop (params : dict) (dv : device)
    (sched : option (nat -> R -> result R)) (lr b1 b2 eps lr_eff : R) :
  let self := Adam.init params dv sched lr b1 b2 eps 0 in
  let g := [seq (kv.1, zeros_like kv.2) | kv <- params] in
  uniq (keys params) -> b1 != 1 -> b2 != 1 -> 0 < eps ->
  Adam.scheduled_lr self = Ok lr_eff ->
  (Adam.update params g self).2 = Ok params.
Proof.
move=> self g uniq_keys b1_neq1 b2_neq1 eps_gt0 lr_ok.
have same : shapes g = shapes params.
  rewrite /shapes /g -map_comp; apply: eq_map => kv /=.
  by rewrite size_zeros_like.
have fit : fits self params g by exact: init_fits.
rewrite (update_of_fits fit lr_ok) /=; congr Ok.
rewrite -[RHS]tabulate_getd //; apply/eq_in_map => k k_params; congr pair.
apply: (@eq_from_nth _ 0) => [|j]; first exact: new_param_size.
rewrite (new_param_size lr_eff fit) // => j_lt.
rewrite (new_param_entry _ fit) // /= /to_device !getd_zeros !nth_zeros_like.
rewrite (@first_step_entry self) //= mul0r addr0.
by rewrite mulr0 mul0r subr0.
Qed.

Lemma zero_gradient_noop_witness :
  (Adam.update params_w [seq (kv.1, zeros_like kv.2) | kv <- params_w]
     (Adam.init params_w (Device "cpu") None (1 / 100) (9 / 10)
        (999 / 1000) (1 / 10 ^+ 8) 0)).2 = Ok params_w.
Proof.
exact: (@zero_gradient_noop params_w (Device "cpu") None (1 / 100) (9 / 10)
          (999 / 1000) (1 / 10 ^+ 8) (1 / 100) (erefl _) nine_tenths_neq1
          b2_default_neq1 eps_default_gt0 (erefl _)).
Defined.

(** X9.  When the keys and shapes of the parameters, the gradient and
    the stored moments agree, [update] returns, and after [step] the
    returned parameters and the instance agree again with every gradient
    of the same shapes: the next [update] finds what it needs. *)
Theorem update_keeps_fit (self : Adam.t) (params g : dict) (lr : R) :
  fits self params g -> Adam.scheduled_lr self = Ok lr ->
  exists (self' : Adam.t) (params' : dict),
    Adam.update params g self = (self', Ok params') /\
    forall g', shapes g' = shapes g ->
      fits (Adam.step self').1 params' g'.
Proof.
move=> fit lr_ok; have [params_g g_params _ _ _] := fit.
exists (after_moments self params g).
exists [seq (k, new_param self params g lr k) | k <- keys params].
split; first exact: update_of_fits.
move=> g' same; have same_keys := shapes_keys same.
split; rewrite /= ?keys_tabulate ?same_keys // => k kg.
have kp := g_params _ kg.
rewrite !getd_tabulate // (shapes_size k same).
rewrite (new_param_size lr fit) // (new_m_size fit) // (new_v_size fit) //.
by case: fit => _ _ _ _ /(_ k kg) [].
Qed.

Lemma update_keeps_fit_witness :
  exists (self' : Adam.t) (params' : dict),
    Adam.update params_w g_w (defaults params_w) = (self', Ok params') /\
    forall g', shapes g' = shapes g_w -> fits (Adam.step self').1 params' g'.
Proof.
apply: (@update_keeps_fit (defaults params_w) params_w g_w).
- exact: init_fits.
- exact: (step_scheduler_half10 0 (1 / 100)).
Defined.

(** X10.  An exception of the scheduler leaves [update] after both
    moments have been replaced: the instance is left with the new [m] and
    [v] and the old counter. *)
Theorem update_scheduler_raises (self : Adam.t) (params g : dict)
    (e : exn) (k : string) (ps : seq string) :
  fits self params g -> keys params = k :: ps ->
  Adam.scheduled_lr self = Raise e ->
  Adam.update params g self = (after_moments self params g, Raise e).
Proof.
case=> _ g_params g_m g_v shapes params_split sched_raises.
rewrite update_reaches_last_line //; try by move=> k' /shapes [].
rewrite params_split /= getitem_in ?params_split ?mem_head //=.
by rewrite sched_raises.
Qed.

Lemma update_scheduler_raises_witness :
  let self := Adam.init params_w (Device "cpu")
                (Some (step_scheduler (1 / 2) 0)) (1 / 100) (9 / 10)
                (999 / 1000) (1 / 10 ^+ 8) (1 / 1000) in
  Adam.update params_w g_w self =
  (after_moments self params_w g_w, Raise ZeroDivisionError).
Proof.
move=> self.
apply: (@update_scheduler_raises self params_w g_w ZeroDivisionError
          "w"%string [::]) => //.
exact: init_fits.
Defined.

(** X11.  A gradient tensor whose length differs from that of its
    parameter, neither being 1, makes [update] raise [RuntimeError] in its
    first comprehension, before anything is assigned: the instance is
    unchanged. *)
Theorem update_shape_mismatch (self : Adam.t) (params g : dict) gs1 k gs2 :
  keys g = gs1 ++ k :: gs2 ->
  {subset gs1 <= keys params} ->
  (forall k', k' \in gs1 -> size (getd g k') = size (getd params k')) ->
  k \in keys params ->
  size (getd g k) != size (getd params k) ->
  size (getd g k) != 1%N -> size (getd params k) != 1%N ->
  Adam.update params g self = (self, Raise RuntimeError).
Proof.
move=> g_split gs1_params shape_g k_params differ g_not1 p_not1.
have in_g k' : k' \in gs1 ++ k :: gs2 -> k' \in keys g by rewrite g_split.
rewrite /Adam.update /Adam.mbind /Adam.read /Adam.lift /=.
rewrite {1}g_split (@dict_comp_raise gs1 k gs2 _ RuntimeError) //.
- move=> k' k'gs1; rewrite getitem_in ?in_g ?mem_cat ?k'gs1 //=.
  rewrite getitem_in ?gs1_params //= /tadd broadcast2_same //.
  by rewrite size_smul shape_g.
- rewrite getitem_in ?in_g ?mem_cat ?mem_head ?orbT //= getitem_in //=.
  by rewrite /tadd /broadcast2 size_smul (negbTE differ) (negbTE g_not1)
             (negbTE p_not1).
Qed.

Lemma update_shape_mismatch_witness :
  Adam.update params_w g_w3 (defaults params_w) =
  (defaults params_w, Raise RuntimeError).
Proof.
by apply: (@update_shape_mismatch (defaults params_w) params_w g_w3
             [::] "w"%string [::]).
Defined.

(** ** [smooth]

    The moving average: when it fails, how long its result is, and that
    it averages. *)

Section SliceFacts.

Implicit Types (s : tensor) (start stop : Z).

Lemma adjust_index_bwd_range len i :
  Z.le 0 len ->
  Z.le (- 1) (adjust_index true len i) /\
  Z.lt (adjust_index true len i) (Z.max len 0).
Proof.
rewrite /adjust_index => len_ge0.
by case: Z.ltb_spec => ?; [case: Z.ltb_spec | case: Z.leb_spec] => ? /=; Lia.lia.
Qed.

Lemma size_slice_bwd s start stop :
  size (slice_bwd s start stop) =
  Z.to_nat (adjust_index true (Z.of_nat (size s)) start -
            adjust_index true (Z.of_nat (size s)) stop).
Proof. by rewrite /slice_bwd size_map size_iota. Qed.

Lemma bwd_index_lt (n k : nat) (a b : Z) :
  Z.le (- 1) b -> Z.lt a (Z.max (Z.of_nat n) 0) ->
  (k < Z.to_nat (a - b))%coq_nat ->
  (Z.to_nat (a - Z.of_nat k) < n)%coq_nat.
Proof. by Lia.lia. Qed.

(** A backward slice only holds entries of the sequence. *)
Lemma slice_bwd_sub s start stop : {subset slice_bwd s start stop <= s}.
Proof.
move=> x /mapP[k]; rewrite mem_iota add0n => /andP[_ /ssrnat.ltP k_lt] ->.
apply: mem_nth; apply/ssrnat.ltP.
have [_ a_lt] := @adjust_index_bwd_range (Z.of_nat (size s)) start
  (Nat2Z.is_nonneg _).
have [b_ge _] := @adjust_index_bwd_range (Z.of_nat (size s)) stop
  (Nat2Z.is_nonneg _).
exact: bwd_index_lt b_ge a_lt k_lt.
Qed.

End SliceFacts.

Section ConvolveFacts.

Implicit Types (a v y : tensor).

Lemma convolve_valid_isSome a v :
  isSome (convolve_valid a v) = (size a != 0%N) && (size v != 0%N).
Proof.
by rewrite /convolve_valid; case: ifP => _; do 2!case: (size _ == 0%N).
Qed.

Lemma convolve_valid_size a v :
  (0 < size a <= size v)%N ->
  exists2 y, convolve_valid a v = Some y & size y = (size v - size a + 1)%N.
Proof.
case/andP=> a_gt0 a_le; rewrite /convolve_valid.
have v_gt0 : (0 < size v)%N by exact: leq_trans a_le.
have a_ne : (size a == 0%N) = false by rewrite eqn0Ngt a_gt0.
have v_ne : (size v == 0%N) = false by rewrite eqn0Ngt v_gt0.
have [lt_av | ge_av] := ltnP (size a) (size v).
  rewrite a_ne v_ne /=.
  by eexists; first by []; rewrite size_map size_iota.
rewrite a_ne v_ne /=.
eexists; first by [].
by rewrite size_map size_iota (eqP (_ : size a == size v)) // eqn_leq a_le.
Qed.

Lemma sum_mean_bounds (w : nat) (f : 'I_w -> R) (lo hi : R) :
  (0 < w)%N -> (forall j, lo <= f j <= hi) ->
  lo <= \sum_(j < w) (1 / w%:R) * f j <= hi.
Proof.
move=> w_gt0 f_in.
have w_neq0 : w%:R != 0 :> R by rewrite pnatr_eq0 -lt0n.
have inv_ge0 : 0 <= 1 / w%:R :> R by rewrite div1r invr_ge0 ler0n.
have const (x : R) : \sum_(j < w) (1 / w%:R) * x = x.
  by rewrite sumr_const card_ord -mulr_natl mulrA div1r divff // mul1r.
apply/andP; split.
  rewrite -[X in X <= _](const lo).
  by apply: ler_sum => j _; apply: ler_wpM2l => //; case/andP: (f_in j).
rewrite -[X in _ <= X](const hi).
by apply: ler_sum => j _; apply: ler_wpM2l => //; case/andP: (f_in j).
Qed.

End ConvolveFacts.

Section SmoothFacts.

Implicit Types (s y : tensor) (w : nat).

Lemma IZR_of_nat (n : nat) : IZR (Z.of_nat n) = n%:R.
Proof.
rewrite -INR_IZR_INZ; elim: n => [//|n IHn].
by rewrite S_INR IHn -[RHS]natr1.
Qed.

Lemma size_kernel w (c : R) (x : R) :
  size [seq z / c | z <- nseq (Z.to_nat (Z.of_nat w)) x] = w.
Proof. by rewrite size_map size_nseq Nat2Z.id. Qed.

Lemma nth_kernel w (j : nat) :
  (j < w)%N ->
  nth 0 [seq x / IZR (Z.of_nat w) | x <- nseq (Z.to_nat (Z.of_nat w)) 1] j
  = 1 / w%:R.
Proof.
move=> j_lt.
by rewrite Nat2Z.id (nth_map 0) ?size_nseq // nth_nseq j_lt IZR_of_nat.
Qed.

Lemma adjust_index_nil (i : Z) : adjust_index true 0 i = (- 1)%stdZ.
Proof.
by rewrite /adjust_index; case: Z.ltb_spec => ?; [case: Z.ltb_spec | case: Z.leb_spec] => ? /=; Lia.lia.
Qed.

Lemma slice_bwd_nil (start stop : Z) : slice_bwd [::] start stop = [::].
Proof. by rewrite /slice_bwd /= !adjust_index_nil. Qed.

Lemma to_nat_neq0 (z : Z) : (Z.to_nat z != 0%N) = Z.ltb 0 z.
Proof.
case: Z.ltb_spec => z0; first by apply/eqP; Lia.lia.
by apply/negbTE; rewrite negbK; apply/eqP; Lia.lia.
Qed.

Lemma pad_sizes (N w : nat) :
  (1 <= w)%coq_nat -> (w <= N)%coq_nat ->
  Z.to_nat (adjust_index true (Z.of_nat N) (Z.of_nat w - 1) -
            adjust_index true (Z.of_nat N) 0) = (w - 1)%coq_nat /\
  Z.to_nat (adjust_index true (Z.of_nat N) (- 2) -
            adjust_index true (Z.of_nat N) (- Z.of_nat w - 1))
  = (w - 1)%coq_nat.
Proof.
move=> w_ge1 w_le; rewrite /adjust_index.
by repeat (case: Z.ltb_spec => ?); repeat (case: Z.leb_spec => ?); Lia.lia.
Qed.

Lemma minn_min (m n : nat) : minn m n = Nat.min m n.
Proof.
rewrite /minn; case: ltnP => [/ssrnat.ltP|/ssrnat.leP] ?; Lia.lia.
Qed.

Lemma trim_size (N w h b : nat) :
  w = Nat.add (Nat.add h h) b -> (b <= 1)%coq_nat ->
  (2 <= w)%coq_nat -> (1 <= N)%coq_nat ->
  (Nat.min
     (Z.to_nat (adjust_index false (Z.of_nat (Nat.sub (Nat.add N w) 1))
                  (- Z.quot (Z.of_nat w) 2)))
     (Nat.sub (Nat.add N w) 1) -
   Z.to_nat (adjust_index false (Z.of_nat (Nat.sub (Nat.add N w) 1))
               (Z.quot (Z.of_nat w - 2) 2)))%coq_nat
  = Nat.add N b.
Proof.
move=> w_eq b_le w_ge N_ge.
rewrite !Z.quot_div_nonneg; try Lia.lia.
have -> : Z.div (Z.of_nat w) 2 = Z.of_nat h.
  by symmetry; apply: (@Z.div_unique _ _ _ (Z.of_nat b)); Lia.lia.
have -> : Z.div (Z.of_nat w - 2) 2 = (Z.of_nat h - 1)%stdZ.
  by symmetry; apply: (@Z.div_unique _ _ _ (Z.of_nat b)); Lia.lia.
rewrite /adjust_index.
by repeat (case: Z.ltb_spec => ?); repeat (case: Z.leb_spec => ?); Lia.lia.
Qed.

End SmoothFacts.

Section SmoothTheorems.

Implicit Types (s y : tensor) (w : nat).

Lemma size_padded s w :
  (0 < w <= size s)%N ->
  size (slice_bwd s (Z.of_nat w - 1) 0 ++ s ++
        slice_bwd s (- 2) (- Z.of_nat w - 1))
  = ((w - 1) + (size s + (w - 1)))%N.
Proof.
case/andP=> /ssrnat.leP w_ge1 /ssrnat.leP w_le.
have [szl szr] := pad_sizes w_ge1 w_le.
by rewrite !size_cat !size_slice_bwd szl szr.
Qed.

Lemma smooth_convolution s w :
  (0 < w <= size s)%N ->
  exists y0,
    [/\ smooth s (Z.of_nat w) =
        Some (slice_fwd y0 (Z.quot (Z.of_nat w - 2) 2)
                (- Z.quot (Z.of_nat w) 2)),
        size y0 = Nat.sub (Nat.add (size s) w) 1
      & forall lo hi, (forall x, x \in s -> lo <= x <= hi) ->
        forall x, x \in y0 -> lo <= x <= hi].
Proof.
move=> w_range; have /andP[w_gt0 w_le] := w_range.
have size_pad := size_padded w_range.
rewrite /smooth; set pad := _ ++ _ in size_pad *.
have -> : Z.ltb (Z.of_nat w) 0 = false by apply/Z.ltb_ge; Lia.lia.
set ker := [seq _ | _ <- _].
have size_ker : size ker = w by rewrite /ker size_kernel.
have w_le_pad : (w <= size pad)%N.
  by rewrite size_pad (leq_trans w_le) // addnCA leq_addr.
have pad_sub : {subset pad <= s}.
  move=> x; rewrite /pad !mem_cat => /or3P[] //; exact: slice_bwd_sub.
have [|y0 conv size_y0] := @convolve_valid_size ker pad.
  by rewrite size_ker w_gt0.
exists y0; split; first by rewrite conv.
  rewrite size_y0 size_ker size_pad.
  move/ssrnat.leP: w_gt0; move/ssrnat.leP: w_le.
  by rewrite -!plusE -!minusE; Lia.lia.
move=> lo hi s_in x.
have pad_in j : (j < size pad)%N -> lo <= nth 0 pad j <= hi.
  by move=> j_lt; apply: s_in; apply: pad_sub; apply: mem_nth.
move: conv; rewrite /convolve_valid.
have [lt_pad | ge_pad] := ltnP (size ker) (size pad).
  case: ifP => // _ [<-] /mapP[n]; rewrite mem_iota add0n => /andP[_ n_lt] ->.
  rewrite size_ker in n_lt *.
  have -> : \sum_(j < w) nth 0 ker j * nth 0 pad (n + w - 1 - j)
            = \sum_(j < w) (1 / w%:R) * nth 0 pad (n + w - 1 - j).
    by apply: eq_bigr => j _; rewrite nth_kernel.
  apply: sum_mean_bounds => // j; apply: pad_in.
  move/ssrnat.ltP: n_lt; move/ssrnat.leP: w_le_pad; move/ssrnat.ltP: (ltn_ord j).
  move/ssrnat.leP: w_gt0.
  by rewrite -!plusE -!minusE => ? ? ? ?; apply/ssrnat.ltP; Lia.lia.
have size_eq : size pad = w.
  by apply/eqP; rewrite eqn_leq w_le_pad andbT -size_ker.
case: ifP => // _ [<-] /mapP[n]; rewrite mem_iota add0n => /andP[_ n_lt] ->.
rewrite size_eq.
have -> : \sum_(j < w) nth 0 pad j * nth 0 ker (n + w - 1 - j)
          = \sum_(j < w) (1 / w%:R) * nth 0 pad j.
  apply: eq_bigr => j _; rewrite mulrC nth_kernel //.
  move/ssrnat.ltP: n_lt; move/ssrnat.ltP: (ltn_ord j); move/ssrnat.leP: w_gt0.
  rewrite size_ker size_eq.
  by rewrite -!plusE -!minusE => ? ? ?; apply/ssrnat.ltP; Lia.lia.
by apply: sum_mean_bounds => // j; apply: pad_in; rewrite size_eq.
Qed.

Lemma slice_fwd_sub y (start stop : Z) : {subset slice_fwd y start stop <= y}.
Proof. by move=> x /mem_drop /mem_take. Qed.

Lemma size_trimmed (N w : nat) y0 :
  (1 < w)%N -> (0 < N)%N -> size y0 = Nat.sub (Nat.add N w) 1 ->
  size (slice_fwd y0 (Z.quot (Z.of_nat w - 2) 2) (- Z.quot (Z.of_nat w) 2))
  = (N + odd w)%N.
Proof.
move=> /ssrnat.leP w_ge2 /ssrnat.leP N_ge1 size_y0.
have w_eq : w = Nat.add (Nat.add w./2 w./2) (odd w).
  by rewrite -[LHS]odd_double_half -addnn addnC.
have b_le : (odd w <= 1)%coq_nat by apply/ssrnat.leP; case: (odd w).
rewrite /slice_fwd size_drop size_take_min minn_min size_y0.
exact: trim_size w_eq b_le w_ge2 N_ge1.
Qed.

Lemma smooth_window1 s : s != [::] -> smooth s 1 = Some [::].
Proof.
move=> s_neq0; have s_gt0 : (0 < size s)%N by rewrite lt0n size_eq0.
have [|y0 [-> size_y0 _]] := @smooth_convolution s 1; first by rewrite s_gt0.
congr Some; apply: size0nil; rewrite /slice_fwd size_drop.
have -> : adjust_index false (Z.of_nat (size y0)) (- Z.quot (Z.of_nat 1) 2)
          = 0%stdZ.
  rewrite /adjust_index /=; case: Z.leb_spec => //.
  by move/ssrnat.leP: s_gt0; rewrite size_y0; Lia.lia.
by rewrite take0 sub0n.
Qed.

End SmoothTheorems.

Section SmoothProperties.

Implicit Types (s y : tensor) (w : nat).

(** X12.  [smooth] fails exactly on an empty signal or a window length
    that is not positive. *)
Theorem smooth_raises s (window_len : Z) :
  isSome (smooth s window_len) = (s != [::]) && Z.ltb 0 window_len.
Proof.
rewrite /smooth; case: Z.ltb_spec => [w_lt0 | w_ge0].
  by rewrite andbC; case: Z.ltb_spec => //; Lia.lia.
set pad := _ ++ _; set ker := [seq _ | _ <- _].
have -> : isSome (if convolve_valid ker pad is Some y
                  then Some (slice_fwd y (Z.quot (window_len - 2) 2)
                               (- Z.quot window_len 2))
                  else None) = isSome (convolve_valid ker pad).
  by case: (convolve_valid ker pad).
rewrite convolve_valid_isSome size_map size_nseq to_nat_neq0 andbC; congr andb.
rewrite /pad; case: (s) => [|x s']; first by rewrite !slice_bwd_nil.
by rewrite !size_cat /= addnS.
Qed.

(** X13.  On a signal at least as long as the window, [smooth] returns a
    sequence of the length of the signal when the window length is even,
    one entry longer when it is odd, and nothing for a window of one. *)
Theorem smooth_size s w :
  (0 < w <= size s)%N ->
  exists2 y, smooth s (Z.of_nat w) = Some y
           & size y = if w == 1%N then 0%N else (size s + odd w)%N.
Proof.
move=> w_range; have /andP[w_gt0 w_le] := w_range.
have s_gt0 : (0 < size s)%N by exact: leq_trans w_le.
case: eqP => [w1 | /eqP w_neq1].
  by exists [::]; rewrite // w1 smooth_window1 // -size_eq0 -lt0n.
have [y0 [-> size_y0 _]] := smooth_convolution w_range.
eexists; first by [].
by apply: size_trimmed => //; rewrite ltn_neqAle eq_sym w_neq1.
Qed.

Lemma smooth_size_witness :
  exists2 y, smooth [:: 1; 2; 3] (Z.of_nat 2) = Some y & size y = 3%N.
Proof. exact: (@smooth_size [:: 1; 2; 3] 2 isT). Defined.

(** X14.  On a signal at least as long as the window, every value that
    [smooth] returns lies between a lower and an upper bound of the
    signal. *)
Theorem smooth_bounds s w (lo hi : R) :
  (0 < w <= size s)%N ->
  (forall x, x \in s -> lo <= x <= hi) ->
  exists2 y, smooth s (Z.of_nat w) = Some y
           & forall x, x \in y -> lo <= x <= hi.
Proof.
move=> w_range s_in.
have [y0 [-> _ y0_in]] := smooth_convolution w_range.
eexists; first by [].
by move=> x /slice_fwd_sub; apply: y0_in.
Qed.

Lemma smooth_bounds_witness :
  exists2 y, smooth [:: 1; 3] (Z.of_nat 2) = Some y
           & forall x, x \in y -> 1 <= x <= 3.
Proof.
apply: (@smooth_bounds [:: 1; 3] 2 1 3 isT) => x.
by rewrite !inE => /orP[] /eqP ->; rewrite lexx ?ler1n ?ler_nat.
Defined.

(** X15.  A constant signal at least as long as a window of two or more
    is returned unchanged (with one more entry for an odd window). *)
Theorem smooth_constant (N w : nat) (c : R) :
  (1 < w <= N)%N ->
  smooth (nseq N c) (Z.of_nat w) = Some (nseq (N + odd w) c).
Proof.
case/andP=> w_gt1 w_le.
have w_range : (0 < w <= size (nseq N c))%N by rewrite size_nseq w_le ltnW.
have [y0 [-> size_y0 y0_in]] := smooth_convolution w_range.
set y := slice_fwd _ _ _; congr Some.
have size_y : size y = (N + odd w)%N.
  apply: size_trimmed => //; first exact: leq_trans (ltnW w_gt1) w_le.
  by rewrite size_y0 size_nseq.
rewrite -size_y; apply/all_pred1P/allP => x /slice_fwd_sub x_y0 /=.
apply/eqP/le_anti; rewrite andbC; apply: (y0_in c c) x_y0 => z.
by rewrite mem_nseq => /andP[_ /eqP ->]; rewrite lexx.
Qed.

Lemma smooth_constant_witness :
  smooth (nseq 4 5) (Z.of_nat 2) = Some (nseq (4 + odd 2) 5).
Proof. exact: (@smooth_constant 4 2 5 isT). Defined.

End SmoothProperties.

Lemma pad_sizes_short (w : nat) :
  (2 <= w)%coq_nat ->
  Z.to_nat (adjust_index true 1 (Z.of_nat w - 1) - adjust_index true 1 0)
  = 0%N /\
  Z.to_nat (adjust_index true 1 (- 2) - adjust_index true 1 (- Z.of_nat w - 1))
  = 0%N.
Proof.
move=> w_ge2; rewrite /adjust_index.
by repeat (case: Z.ltb_spec => ?); repeat (case: Z.leb_spec => ?); Lia.lia.
Qed.

Lemma convolve_point (x : R) (w : nat) :
  (0 < w)%N ->
  convolve_valid
    [seq z / IZR (Z.of_nat w) | z <- nseq (Z.to_nat (Z.of_nat w)) 1] [:: x]
  = Some (nseq w (x / w%:R)).
Proof.
move=> w_gt0; set ker := [seq _ | _ <- _].
have size_ker : size ker = w by rewrite /ker size_kernel.
rewrite /convolve_valid size_ker ltnS leqn0 eqn0Ngt w_gt0 /=.
rewrite size_ker eqn0Ngt w_gt0 /=; congr Some.
set y0 := [seq _ | _ <- _].
have size_y0 : size y0 = w by rewrite /y0 size_map size_iota subnK.
have -> : nseq w (x / w%:R) = nseq (size y0) (x / w%:R) by rewrite size_y0.
apply/all_pred1P/allP => z /mapP[n].
rewrite mem_iota add0n subnK // => /andP[_ n_lt] -> /=; apply/eqP.
rewrite big_ord_recl big_ord0 addr0 /= nth_kernel ?addnK ?subn0 //.
by rewrite mulrA mulr1.
Qed.

(** X16.  A signal of one point is not kept: with a window of two or more
    points [smooth] returns the point divided by the window length (once
    for an even window, twice for an odd one). *)
Theorem smooth_single_point (x : R) (w : nat) :
  (1 < w)%N ->
  smooth [:: x] (Z.of_nat w) = Some (nseq (odd w).+1 (x / w%:R)).
Proof.
move=> w_gt1; have w_gt0 := ltnW w_gt1.
rewrite /smooth.
have -> : Z.ltb (Z.of_nat w) 0 = false by apply/Z.ltb_ge; Lia.lia.
have [szl szr] := pad_sizes_short (ssrnat.leP w_gt1).
have -> : slice_bwd [:: x] (Z.of_nat w - 1) 0 = [::].
  by apply: size0nil; rewrite size_slice_bwd; exact: szl.
have -> : slice_bwd [:: x] (- 2) (- Z.of_nat w - 1) = [::].
  by apply: size0nil; rewrite size_slice_bwd; exact: szr.
rewrite [[::] ++ _]/= convolve_point //; congr Some.
set y := slice_fwd _ _ _.
have size_y : size y = (odd w).+1.
  by rewrite (@size_trimmed 1 w) ?add1n // size_nseq; Lia.lia.
rewrite -size_y; apply/all_pred1P/allP => z /slice_fwd_sub.
by rewrite mem_nseq => /andP[_].
Qed.

Lemma smooth_single_point_witness :
  smooth [:: 7] (Z.of_nat 32) = Some (nseq (odd 32).+1 (7 / 32%:R)).
Proof. exact: (@smooth_single_point 7 32 isT). Defined.

(** ** The optical depth curves

    [tauHI], [omega_func] and [tau] at redshifts above -1, where the base
    of the power is positive, and [tau] at and below -1. *)

Section DepthFacts.

Lemma RltP (x y : R) : reflect (Rlt x y) (x < y).
Proof. exact: ltRP. Qed.

Lemma RleP (x y : R) : reflect (Rle x y) (x <= y).
Proof. exact: leRP. Qed.

Lemma Rpower_gt0 (x y : R) : 0 < Rpower x y.
Proof. by apply/RltP; rewrite /Rpower; exact: exp_pos. Qed.


Lemma exp_gt0 (x : R) : 0 < exp x.
Proof. by apply/RltP; exact: exp_pos. Qed.

Lemma exp0 : exp 0 = 1.
Proof. exact: exp_0. Qed.

Lemma exp_le1 (x : R) : x <= 0 -> exp x <= 1.
Proof.
rewrite le_eqVlt => /orP[/eqP -> | /RltP x_lt0]; first by rewrite exp0.
by apply/RleP; rewrite -exp0; apply: Rlt_le; apply: exp_increasing.
Qed.

Lemma torch_pow_pos (x y : R) : 0 < x -> torch_pow x y = Fin (Rpower x y).
Proof. by rewrite /torch_pow => ->. Qed.

Lemma tauHI_pos (z : tensor) (tau0 beta : R) :
  (forall x, x \in z -> -1 < x) ->
  tauHI z tau0 beta =
  [seq Fin y | y <- [seq tau0 * Rpower (1 + x) beta | x <- z]].
Proof.
move=> z_gt; rewrite /tauHI -map_comp; apply/eq_in_map => x /z_gt x_gt /=.
by rewrite torch_pow_pos // -ltrBlDl sub0r.
Qed.

End DepthFacts.

Section DepthCurves.

Implicit Types (z t : tensor).

Lemma omega_func_pos z (tau0 beta c0 : R) :
  (forall x, x \in z -> -1 < x) ->
  omega_func z tau0 beta c0 =
  [seq Fin y
  | y <- [seq (1 - c0 - exp (- (tau0 * Rpower (1 + x) beta))) ^+ 2 | x <- z]].
Proof.
move=> z_gt; rewrite /omega_func tauHI_pos // -!map_comp.
by apply/eq_in_map => x _ /=; rewrite mulN1r expr2.
Qed.


Lemma map_const (A B : Type) (c : B) (s : seq A) :
  [seq c | _ <- s] = nseq (size s) c.
Proof. by elim: s => //= _ s ->. Qed.

Lemma sqr_le1 (r : R) : -1 <= r <= 1 -> r ^+ 2 <= 1.
Proof.
by move=> r_in; rewrite -real_normK ?num_real // expr_le1 // ler_norml.
Qed.




(** X18.  For a non-negative amplitude and a bias between 0 and 1,
    [omega_func] is finite and lies between 0 and 1 at every redshift
    above -1. *)
Theorem omega_func_range z (tau0 beta c0 : R) :
  0 <= tau0 -> 0 <= c0 <= 1 -> (forall x, x \in z -> -1 < x) ->
  exists2 t, omega_func z tau0 beta c0 = [seq Fin y | y <- t]
    & size t = size z /\ forall y, y \in t -> 0 <= y <= 1.
Proof.
move=> tau0_ge0 /andP[c0_ge0 c0_le1] z_gt; rewrite omega_func_pos //.
eexists; first by []; split; first by rewrite size_map.
move=> y /mapP[x x_z ->]; rewrite sqr_ge0 /=; apply: sqr_le1.
set e := exp _.
have e_gt0 : 0 < e by exact: exp_gt0.
have e_le1 : e <= 1.
  by apply: exp_le1; rewrite oppr_le0 mulr_ge0 // ltW // Rpower_gt0.
apply/andP; split; first by rewrite -[-1]add0r lerD ?subr_ge0 ?lerN2.
by rewrite -[X in _ <= X]addr0 lerD ?gerBl ?oppr_le0 // ltW.
Qed.

Lemma omega_func_range_witness :
  exists2 t, omega_func [:: 2] 1 2 (1 / 2) = [seq Fin y | y <- t]
    & size t = 1%N /\ forall y, y \in t -> 0 <= y <= 1.
Proof.
apply: (@omega_func_range [:: 2] 1 2 (1 / 2)) => //.
  by rewrite divr_ge0 //= ler_pdivrMr ?ltr0n // mul1r ler1n.
by move=> x; rewrite inE => /eqP ->; apply: (@lt_trans _ _ 0);
   rewrite ?oppr_lt0 ?ltr0n.
Defined.

(** X19.  With a zero amplitude [omega_func] returns the square of the
    bias at every redshift above -1, whatever the index. *)
Theorem omega_func_zero_depth z (beta c0 : R) :
  (forall x, x \in z -> -1 < x) ->
  omega_func z 0 beta c0 = nseq (size z) (Fin (c0 ^+ 2)).
Proof.
move=> z_gt; rewrite omega_func_pos // -map_comp -map_const.
apply/eq_in_map => x _ /=.
by rewrite mul0r oppr0 exp0 addrAC subrr add0r sqrrN.
Qed.

Lemma omega_func_zero_depth_witness :
  omega_func [:: 2; 3] 0 2 5 = nseq 2 (Fin (5 ^+ 2)).
Proof.
apply: (@omega_func_zero_depth [:: 2; 3] 2 5) => x.
by rewrite !inE => /orP[] /eqP ->; apply: (@lt_trans _ _ 0);
   rewrite ?oppr_lt0 ?ltr0n.
Defined.

End DepthCurves.

Section MeanDepth.

Implicit Types (z t : tensor).

Lemma z0_gt0 : 0 < 1 + 35 / 10 :> R.
Proof. by rewrite addr_gt0 // divr_gt0 // ltr0n. Qed.



Lemma index_not_integer (n : Z) : (IZR n == 290 / 100) = false.
Proof.
apply/eqP => n_eq.
have n100 : IZR n * 100%:R = 290%:R by rewrite n_eq divfK // pnatr_eq0.
have : IZR (n * Z.of_nat 100) = IZR (Z.of_nat 290).
  by rewrite mult_IZR !IZR_of_nat; exact: n100.
by move/eq_IZR; Lia.lia.
Qed.



(** X21.  [tau] never fails: at a redshift below -1 the entry is [nan],
    and at -1 it is the offset -0.132. *)
Theorem tau_outside_domain z (i : nat) :
  (i < size z)%N -> nth 0 z i <= -1 ->
  nth (Fin 0) (tau z) i =
  if nth 0 z i == -1 then Fin (- (132 / 1000)) else NaN.
Proof.
move=> i_lt zi_le; rewrite /tau (nth_map 0) //.
have b_gt0 : 0 < 290 / 100 :> R by rewrite divr_gt0 // ltr0n.
move: zi_le; rewrite le_eqVlt => /orP[/eqP -> | zi_lt].
  by rewrite eqxx subrr mul0r /torch_pow ltxx eqxx b_gt0 /= mulr0 add0r.
rewrite (lt_eqF zi_lt).
have base_lt0 : (1 + nth 0 z i) / (1 + 35 / 10) < 0.
  by rewrite pmulr_llt0 ?invr_gt0 ?z0_gt0 // -ltrBrDl sub0r.
by rewrite /torch_pow (lt_gtF base_lt0) (lt_eqF base_lt0) index_not_integer.
Qed.

Lemma tau_outside_domain_witness :
  nth (Fin 0) (tau [:: - 2]) 0 = if (- 2 : R) == -1 then Fin (- (132 / 1000)) else NaN.
Proof.
apply: (@tau_outside_domain [:: - 2] 0) => //=.
by rewrite lerN2 ler1n.
Defined.

End MeanDepth.

(** ** [MatrixInverse] and [MatrixLogDet] in binary32

    The two inputs on which the float32 computation leaves the exact
    value: [1 + 4096 ^ 2] is rounded to [4096 ^ 2], [1 + 2 ^ -26] to [1],
    and [2 ^ 128] is above the largest binary32 number. *)






(** C1, as stated, fails in binary32 at [M = [[4096]]], [D = [1]]:
    [MatrixInverse] returns [[0]], so that its product with
    [M M^T + diag D] is [0], at distance 1 from the identity and not
    within [1e-4] of it. *)
Lemma MatrixInverse_f32_returns_zero :
  [/\ MatrixInverse_f32 M_4096 D_one (Device "cpu") = Ok (S754_zero false),
      F32.to_xreal (F32.mul (S754_zero false) (Sigma_f32 M_4096 D_one))
      = Fin 0
    & ~~ (`|0 - 1| < 1 / 10 ^+ 4 :> R)].
Proof.
split; first by vm_compute.
  have -> : F32.mul (S754_zero false) (Sigma_f32 M_4096 D_one)
            = S754_zero false by vm_compute.
  by [].
rewrite sub0r normrN normr1 -leNgt ler_pdivrMr ?exprn_gt0 ?ltr0n //.
by rewrite mul1r -natrX ler1n.
Qed.

